(** * ResumeChecker: a shallow embedding of [utils.py] and of the keyword
    coverage step of [app.py], with the properties of the specification.

    Text model.  A Python [str] is a [list ascii]: one [ascii] per code unit.
    The character classes below are Python's on ASCII; a unit above 127 is
    neither a letter, a digit, a word character nor white space and has no
    case, so the embedding is exact on ASCII text, and the three non-ASCII
    literals of the source (the bullet glyph, the warning sign and the dash
    of two messages) stand as their UTF-8 units.  Python's [\d], [\s],
    [str.strip] and [str.lower] also act on characters outside ASCII
    (other decimal digits and white space, letters with a lower case of
    one or two characters): a property that depends on them is stated for
    ASCII text ([Notions.ascii_text]).

    Number model.  A Python [float] is a real number ([R]): TF-IDF weights,
    norms and the cosine are the exact values the floating-point code
    approximates.  The rounded values can miss an exact value by a few
    units in the last place (the cosine of a row with itself can be
    1.0000000000000002), so equalities with 1 are stated up to
    [Notions.tolerance] and no upper bound of a score is stated; a zero
    is exact in both. *)

From Stdlib Require Import List String Ascii Bool Arith ZArith Lia.
From Stdlib Require Import Permutation Sorted Reals Lra.
Import ListNotations.

Set Implicit Arguments.

(** ** Python strings *)

Definition str := list ascii.

(** A literal of the source. *)
Definition txt (s : string) : str := list_ascii_of_string s.

Module PyStr.

Definition code (c : ascii) : nat := nat_of_ascii c.

Definition between (lo hi : nat) (c : ascii) : bool :=
  (lo <=? code c) && (code c <=? hi).

(** A character of ASCII. *)
Definition is_ascii (c : ascii) : bool := code c <? 128.

(** [\d], [a-z], [A-Z] *)
Definition is_digit (c : ascii) : bool := between 48 57 c.
Definition is_lower (c : ascii) : bool := between 97 122 c.
Definition is_upper (c : ascii) : bool := between 65 90 c.
Definition is_alpha (c : ascii) : bool := is_lower c || is_upper c.

(** [\s] and [str.isspace]: TAB, LF, VT, FF, CR, FS, GS, RS, US, SPACE. *)
Definition is_space (c : ascii) : bool :=
  between 9 13 c || between 28 31 c || (code c =? 32).

(** [\w]: letters, digits and the underscore. *)
Definition is_word (c : ascii) : bool :=
  is_alpha c || is_digit c || (code c =? 95).

Definition is_char (a : ascii) (c : ascii) : bool := Ascii.eqb a c.

Definition lower_char (c : ascii) : ascii :=
  if is_upper c then ascii_of_nat (code c + 32) else c.

(** [s.lower()] *)
Definition lower (s : str) : str := map lower_char s.

Fixpoint drop_while (p : ascii -> bool) (s : str) : str :=
  match s with
  | [] => []
  | c :: s' => if p c then drop_while p s' else s
  end.

(** [s.lstrip()], [s.rstrip()], [s.strip()] *)
Definition lstrip (s : str) : str := drop_while is_space s.
Definition rstrip (s : str) : str := rev (drop_while is_space (rev s)).
Definition strip (s : str) : str := rstrip (lstrip s).

Fixpoint str_eqb (a b : str) : bool :=
  match a, b with
  | [], [] => true
  | x :: a', y :: b' => Ascii.eqb x y && str_eqb a' b'
  | _, _ => false
  end.

Fixpoint starts_with (p s : str) : bool :=
  match p, s with
  | [], _ => true
  | x :: p', y :: s' => Ascii.eqb x y && starts_with p' s'
  | _ :: _, [] => false
  end.

(** [p in s] for two strings: [p] occurs in [s] as a substring. *)
Fixpoint contains (p s : str) : bool :=
  starts_with p s ||
  match s with
  | [] => false
  | _ :: s' => contains p s'
  end.

(** [x in l] for a string and a collection of strings. *)
Definition mem (x : str) (l : list str) : bool := existsb (str_eqb x) l.

(** [sep.join(l)] *)
Fixpoint join (sep : str) (l : list str) : str :=
  match l with
  | [] => []
  | [x] => x
  | x :: rest => x ++ sep ++ join sep rest
  end.

(** The maximal runs of characters satisfying [p], in order; [cur] is the
    run being read, reversed. *)
Fixpoint runs_from (p : ascii -> bool) (cur : str) (s : str) : list str :=
  match s with
  | [] => match cur with [] => [] | _ => [rev cur] end
  | c :: s' =>
      if p c then runs_from p (c :: cur) s'
      else match cur with
           | [] => runs_from p [] s'
           | _ => rev cur :: runs_from p [] s'
           end
  end.

Definition runs (p : ascii -> bool) (s : str) : list str := runs_from p [] s.

(** [s.split()]: the maximal runs of characters that are not white space. *)
Definition split (s : str) : list str := runs (fun c => negb (is_space c)) s.

(** [a < b] and [a <= b] on strings: lexicographic on the code units. *)
Fixpoint ltb (a b : str) : bool :=
  match a, b with
  | _, [] => false
  | [], _ :: _ => true
  | x :: a', y :: b' =>
      (code x <? code y) || ((code x =? code y) && ltb a' b')
  end.

Definition leb (a b : str) : bool := negb (ltb b a).

(** [s.split(sep)] for a separator of one character: the pieces between
    the separators, one piece at least. *)
Fixpoint split_on (sep : ascii) (s : str) : list str :=
  match s with
  | [] => [[]]
  | c :: s' =>
      if Ascii.eqb c sep then [] :: split_on sep s'
      else match split_on sep s' with
           | piece :: rest => (c :: piece) :: rest
           | [] => [[c]]
           end
  end.

End PyStr.

(** ** Exceptions *)

Inductive exn : Type :=
| ValueError (msg : string)
| IndexError.

Inductive result (A : Type) : Type :=
| Ok (a : A)
| Raise (e : exn).

Arguments Ok {A} a.
Arguments Raise {A} e.

(** ** [utils.py]: the normalizer *)

Module Normalizer.
Import PyStr.

(** The class [[a-z0-9+#.\-()\s]]. *)
Definition allowed (c : ascii) : bool :=
  is_lower c || is_digit c || is_char "+" c || is_char "#" c ||
  is_char "." c || is_char "-" c || is_char "(" c || is_char ")" c ||
  is_space c.

(** [re.sub(r"[^a-z0-9+#.\-()\s]", " ", t)]: every character outside the
    class becomes one space. *)
Definition sub_disallowed (t : str) : str :=
  map (fun c => if allowed c then c else " "%char) t.

(** [re.sub(r"\s+", " ", t)]: every maximal run of white space becomes
    one space; [in_run] tells that the run's space was already written. *)
Fixpoint sub_spaces_from (in_run : bool) (t : str) : str :=
  match t with
  | [] => []
  | c :: t' =>
      if is_space c
      then (if in_run then sub_spaces_from true t'
            else " "%char :: sub_spaces_from true t')
      else c :: sub_spaces_from false t'
  end.

Definition sub_spaces (t : str) : str := sub_spaces_from false t.

Definition clean_text (t : str) : str :=
  let t := lower t in
  let t := sub_disallowed t in
  let t := strip (sub_spaces t) in
  t.

End Normalizer.

(** ** Regular expressions

    The patterns of the source use character classes, concatenation,
    alternation and repetition only (no anchor, look-around or back
    reference).  [re.search] succeeds exactly when some substring of the
    text belongs to the pattern's language; it is decided with derivatives,
    one start position after the other, as [re.search] tries them. *)

Module Regex.

Inductive regex : Type :=
| Void
| Eps
| Class (p : ascii -> bool)
| Cat (r s : regex)
| Alt (r s : regex)
| Star (r : regex).

(** One given character; a literal string; [r+]; [r?]; [r{n,}]. *)
Definition Lit (a : ascii) : regex := Class (Ascii.eqb a).

Fixpoint Word (w : str) : regex :=
  match w with
  | [] => Eps
  | c :: w' => Cat (Lit c) (Word w')
  end.

Definition Plus (r : regex) : regex := Cat r (Star r).
Definition Opt (r : regex) : regex := Alt r Eps.

Fixpoint AtLeast (n : nat) (r : regex) : regex :=
  match n with
  | O => Star r
  | S k => Cat r (AtLeast k r)
  end.

(** The language of a pattern. *)
Inductive matches : regex -> str -> Prop :=
| MEps : matches Eps []
| MClass (p : ascii -> bool) (c : ascii) :
    p c = true -> matches (Class p) [c]
| MCat (r s : regex) (u v : str) :
    matches r u -> matches s v -> matches (Cat r s) (u ++ v)
| MAltL (r s : regex) (u : str) : matches r u -> matches (Alt r s) u
| MAltR (r s : regex) (u : str) : matches s u -> matches (Alt r s) u
| MStarNil (r : regex) : matches (Star r) []
| MStarApp (r : regex) (u v : str) :
    matches r u -> matches (Star r) v -> matches (Star r) (u ++ v).

Fixpoint nullable (r : regex) : bool :=
  match r with
  | Void => false
  | Eps => true
  | Class _ => false
  | Cat r s => nullable r && nullable s
  | Alt r s => nullable r || nullable s
  | Star _ => true
  end.

(** Concatenation and alternation that drop [Void] and a leading [Eps]. *)
Definition cat (r s : regex) : regex :=
  match r, s with
  | Void, _ => Void
  | _, Void => Void
  | Eps, _ => s
  | _, _ => Cat r s
  end.

Definition alt (r s : regex) : regex :=
  match r, s with
  | Void, _ => s
  | _, Void => r
  | _, _ => Alt r s
  end.

Fixpoint deriv (c : ascii) (r : regex) : regex :=
  match r with
  | Void => Void
  | Eps => Void
  | Class p => if p c then Eps else Void
  | Cat r s =>
      if nullable r then alt (cat (deriv c r) s) (deriv c s)
      else cat (deriv c r) s
  | Alt r s => alt (deriv c r) (deriv c s)
  | Star r => cat (deriv c r) (Star r)
  end.

(** Some prefix of [s] matches [r]: [re.match(r, s)] succeeds. *)
Fixpoint match_prefix (r : regex) (s : str) : bool :=
  nullable r ||
  match s with
  | [] => false
  | c :: s' => match_prefix (deriv c r) s'
  end.

(** [bool(re.search(r, s))] *)
Fixpoint search (r : regex) (s : str) : bool :=
  match_prefix r s ||
  match s with
  | [] => false
  | _ :: s' => search r s'
  end.

(** [re.findall] for an alternation of literals [a1|a2|...]: at each
    position the first alternative that starts there is taken and the
    scan resumes after it; [skip] counts the characters of the match
    still to pass. *)
Definition first_literal (alts : list str) (s : str) : option str :=
  find (fun a => PyStr.starts_with a s) alts.

Fixpoint findall_literals_from (alts : list str) (skip : nat) (s : str)
  : list str :=
  match s with
  | [] => []
  | _ :: s' =>
      match skip with
      | S k => findall_literals_from alts k s'
      | O =>
          match first_literal alts s with
          | Some a => a :: findall_literals_from alts (List.length a - 1) s'
          | None => findall_literals_from alts 0 s'
          end
      end
  end.

Definition findall_literals (alts : list str) (s : str) : list str :=
  findall_literals_from alts 0 s.

End Regex.

(** ** [utils.py]: the structural checks and the suggestions *)

Module Utils.
Import PyStr Regex.

Definition SECTION_HINTS : list str :=
  [ txt "summary"; txt "profile"; txt "skills"; txt "technical skills";
    txt "experience"; txt "work experience"; txt "projects";
    txt "education"; txt "certifications"; txt "awards" ].

(** [[A-Za-z0-9._%+-]] and [[A-Za-z0-9.-]] *)
Definition email_local (c : ascii) : bool :=
  is_alpha c || is_digit c || is_char "." c || is_char "_" c ||
  is_char "%" c || is_char "+" c || is_char "-" c.

Definition email_domain (c : ascii) : bool :=
  is_alpha c || is_digit c || is_char "." c || is_char "-" c.

(** [[\d\-\s]] *)
Definition phone_inner (c : ascii) : bool :=
  is_digit c || is_char "-" c || is_space c.

(** [[A-Za-z0-9._%+-]+@[A-Za-z0-9.-]+\.[A-Za-z]{2,}] *)
Definition email_re : regex :=
  Cat (Plus (Class email_local))
    (Cat (Lit "@")
       (Cat (Plus (Class email_domain))
          (Cat (Lit ".") (AtLeast 2 (Class is_alpha))))).

(** [(\+?\d[\d\-\s]{7,}\d)] *)
Definition phone_re : regex :=
  Cat (Opt (Lit "+"))
    (Cat (Class is_digit)
       (Cat (AtLeast 7 (Class phone_inner)) (Class is_digit))).

Definition has_contact_info (text : str) : bool * bool :=
  let email := search email_re text in
  let phone := search phone_re text in
  (email, phone).

Definition has_sections (text : str) : list str :=
  let t := lower text in
  let hits := filter (fun s => contains s t) SECTION_HINTS in
  hits.

(** The bullet glyph U+2022, in UTF-8. *)
Definition bullet_glyph : str :=
  [ascii_of_nat 226; ascii_of_nat 128; ascii_of_nat 162].

Definition bullet_usage (text : str) : bool :=
  let bullets :=
    findall_literals [bullet_glyph; txt "- "; txt "* "] text in
  5 <=? List.length bullets.

(** [(20\d{2}|19\d{2})] *)
Definition year_re : regex :=
  Alt (Cat (Word (txt "20")) (Cat (Class is_digit) (Class is_digit)))
      (Cat (Word (txt "19")) (Cat (Class is_digit) (Class is_digit))).

Definition has_dates (text : str) : bool := search year_re text.

(** A check's result, [{"ok": ..., "msg": ...}]. *)
Record check : Type := { ok : bool; msg : str }.

(** The report: a [dict], kept with its insertion order, which the
    iteration of [suggest_improvements] follows. *)
Definition report : Type := list (str * check).

Definition tables_flag : str :=
  txt "⚠️ Use tables sparingly; some ATS drops table content.".

(** [x or y] on strings: [y] when [x] is empty. *)
Definition or_str (x y : str) : str :=
  match x with [] => y | _ => x end.

Definition ats_checks (resume_text ext : str) : report :=
  let '(email_ok, phone_ok) := has_contact_info resume_text in
  let sections := has_sections resume_text in
  let bullets_ok := bullet_usage resume_text in
  let dates_ok := has_dates resume_text in
  let file_ok := str_eqb ext (txt "pdf") || str_eqb ext (txt "docx") in
  [ (txt "File Type",
     {| ok := file_ok;
        msg := txt "PDF/DOCX are ATS-safe. Avoid images/scans." |});
    (txt "Contact Info",
     {| ok := email_ok && phone_ok;
        msg := txt "Include a professional email and reachable phone number." |});
    (txt "Clear Sections",
     {| ok := 3 <=? List.length sections;
        msg := txt "Detected sections: "
               ++ or_str (join (txt ", ") sections) (txt "none")
               ++ txt "." |});
    (txt "Bullet Structure",
     {| ok := bullets_ok;
        msg := txt "Use concise bullet points with action verbs and impact." |});
    (txt "Dates Present",
     {| ok := dates_ok;
        msg := txt "Include years for roles/projects (YYYY–YYYY)." |});
    (txt "Tables/Graphics",
     {| ok := true; msg := tables_flag |}) ].

(** [report[name]] *)
Fixpoint lookup (name : str) (r : report) : option check :=
  match r with
  | [] => None
  | (k, v) :: r' => if str_eqb name k then Some v else lookup name r'
  end.

(** [report[name]["ok"]] *)
Definition check_ok (name : str) (r : report) : option bool :=
  option_map ok (lookup name r).

Definition low_score_suggestion : str :=
  txt "Customize your summary and top bullets with JD keywords to raise the match score.".

Definition mid_score_suggestion : str :=
  txt "Strengthen skills and achievements using exact phrasing from the JD where truthful.".

Definition missing_suggestion (missing : list str) : str :=
  txt "Incorporate missing role-specific keywords where accurate: "
  ++ join (txt ", ") (firstn 12 missing) ++ txt ".".

Definition ats_suggestion (k : str) (v : check) : str :=
  txt "ATS: " ++ msg v ++ txt " (Improve: " ++ k ++ txt ").".

Definition general_suggestions : list str :=
  [ txt "Start bullets with strong action verbs (Built, Optimized, Automated) and quantify impact.";
    txt "Keep formatting simple: one column, standard fonts, no headers/footers.";
    txt "Save as text-based PDF (not scanned)." ].

(** The list [suggestions] is threaded through the four steps of the
    source; [append] and [extend] add at its end. *)
Definition suggest_improvements
    (match_score : R) (present missing : list str) (ats_report : report)
  : list str :=
  let suggestions : list str := [] in
  let suggestions :=
    if Rlt_dec match_score 0.45 then suggestions ++ [low_score_suggestion]
    else if Rlt_dec match_score 0.65 then suggestions ++ [mid_score_suggestion]
    else suggestions in
  let suggestions :=
    match missing with
    | [] => suggestions
    | _ :: _ => suggestions ++ [missing_suggestion missing]
    end in
  let suggestions :=
    fold_left
      (fun acc kv =>
         let '(k, v) := kv in
         if negb (ok v) then acc ++ [ats_suggestion k v] else acc)
      ats_report suggestions in
  suggestions ++ general_suggestions.

End Utils.

(** ** An error monad for the calls that can raise *)

Definition bind {A B : Type} (m : result A) (f : A -> result B) : result B :=
  match m with
  | Ok a => f a
  | Raise e => Raise e
  end.

Notation "x <- m ;; k" := (bind m (fun x => k))
  (at level 61, m at next level, right associativity).
Notation "' p <- m ;; k" := (bind m (fun x => let 'p := x in k))
  (at level 61, p pattern, m at next level, right associativity).

(** ** Python lists and NumPy arrays *)

Module PyList.

(** [l[start:]] *)
Definition slice_from {A : Type} (start : Z) (l : list A) : list A :=
  let n := Z.of_nat (List.length l) in
  let start := if (start <? 0)%Z then Z.max 0 (n + start) else Z.min start n in
  skipn (Z.to_nat start) l.

(** [l[i]] for an index that is not negative. *)
Definition get {A : Type} (l : list A) (i : nat) : result A :=
  match nth_error l i with
  | Some a => Ok a
  | None => Raise IndexError
  end.

(** [[l[i] for i in idx if keep(l[i])]] *)
Fixpoint select {A : Type} (keep : A -> bool) (l : list A) (idx : list nat)
  : result (list A) :=
  match idx with
  | [] => Ok []
  | i :: idx' =>
      a <- get l i ;;
      rest <- select keep l idx' ;;
      Ok (if keep a then a :: rest else rest)
  end.

(** [sorted(l, key=...)]: a stable sort; [lt] is [<] on the keys.  Each
    element goes after those already placed that are not greater. *)
Fixpoint insert {A : Type} (lt : A -> A -> bool) (x : A) (l : list A)
  : list A :=
  match l with
  | [] => [x]
  | y :: l' => if lt x y then x :: y :: l' else y :: insert lt x l'
  end.

Definition sorted {A : Type} (lt : A -> A -> bool) (l : list A) : list A :=
  fold_left (fun acc x => insert lt x acc) l [].

(** [l[-1]] *)
Definition get_last {A : Type} (l : list A) : result A :=
  match rev l with
  | a :: _ => Ok a
  | [] => Raise IndexError
  end.

End PyList.

(** ** scikit-learn: [TfidfVectorizer] and [cosine_similarity]

    The library is not part of the repository; this is the behaviour it
    documents, for the part the two callers reach with the parameters they
    pass: [ngram_range=(1,2)], [stop_words="english"], [min_df=1],
    and the defaults [lowercase=True], [token_pattern=r"(?u)\b\w\w+\b"],
    [max_df=1.0], [smooth_idf=True], [sublinear_tf=False], [norm="l2"].
    With [min_df=1] and [max_df=1.0] no term is pruned: every term of the
    vocabulary occurs in one document at least and in all at most. *)

Module Sklearn.
Import PyStr.

Definition sum_sq (v : list R) : R :=
  fold_right (fun x acc => x * x + acc)%R 0%R v.

Fixpoint dot (u v : list R) : R :=
  match u, v with
  | x :: u', y :: v' => (x * y + dot u' v')%R
  | _, _ => 0%R
  end.

(** [normalize(X, norm="l2")] on one row: a row of squared norm zero is
    left as it is, any other is divided by its norm. *)
Definition normalize_l2 (v : list R) : list R :=
  if Req_dec_T (sum_sq v) 0 then v
  else map (fun x => x / sqrt (sum_sq v))%R v.

(** [cosine_similarity(x, y)] for two rows: both are normalized, then
    multiplied. *)
Definition cosine_similarity (x y : list R) : R :=
  dot (normalize_l2 x) (normalize_l2 y).

(** The tokens of [token_pattern]: the maximal runs of two word
    characters or more. *)
Definition tokenize (doc : str) : list str :=
  filter (fun w => 2 <=? List.length w) (runs is_word doc).

Fixpoint bigrams (tokens : list str) : list str :=
  match tokens with
  | a :: (b :: _) as rest => (a ++ txt " " ++ b) :: bigrams rest
  | _ => []
  end.

(** The features are sorted ([_sort_features]) and distinct. *)
Fixpoint insert_feature (x : str) (l : list str) : list str :=
  match l with
  | [] => [x]
  | y :: l' =>
      if ltb x y then x :: y :: l'
      else if str_eqb x y then y :: l'
      else y :: insert_feature x l'
  end.

Definition count (t : str) (features : list str) : nat :=
  List.length (filter (str_eqb t) features).

Section Vectorizer.

(** The library's list [ENGLISH_STOP_WORDS]. *)
Variable stop_words : list str.

(** [_word_ngrams]: the stop words go, then come the unigrams and the
    bigrams of what is left. *)
Definition word_ngrams (tokens : list str) : list str :=
  let tokens := filter (fun w => negb (mem w stop_words)) tokens in
  tokens ++ bigrams tokens.

Definition analyze (doc : str) : list str :=
  word_ngrams (tokenize (lower doc)).

Definition vocabulary (docs : list (list str)) : list str :=
  fold_right insert_feature [] (List.concat docs).

(** The number of documents a term occurs in. *)
Definition document_frequency (docs : list (list str)) (t : str) : nat :=
  List.length (filter (fun d => 0 <? count t d) docs).

(** [idf = ln((1 + n) / (1 + df)) + 1] *)
Definition idf (docs : list (list str)) (t : str) : R :=
  (ln ((1 + INR (List.length docs))
       / (1 + INR (document_frequency docs t))) + 1)%R.

Definition tfidf_row (docs : list (list str)) (terms : list str)
    (d : list str) : list R :=
  normalize_l2 (map (fun t => INR (count t d) * idf docs t)%R terms).

(** [vect.fit_transform(raw_documents)] with
    [vect.get_feature_names_out()]: the terms and one row of weights
    per document; [ValueError] when no term is left. *)
Definition fit_transform (raw_documents : list str)
  : result (list str * list (list R)) :=
  let docs := map analyze raw_documents in
  match vocabulary docs with
  | [] =>
      Raise (ValueError
        "empty vocabulary; perhaps the documents only contain stop words")
  | terms => Ok (terms, map (tfidf_row docs terms) docs)
  end.

End Vectorizer.

End Sklearn.

(** ** NumPy: what is assumed of [numpy.argsort], and a stable instance *)

Module Numpy.

(** [idx] lists positions of [v] by increasing value. *)
Definition ascending (v : list R) (idx : list nat) : Prop :=
  StronglySorted (fun i j => (nth i v 0 <= nth j v 0)%R) idx.

(** An [argsort] returns every position of the array once, by increasing
    value; nothing is said of the order of equal values. *)
Definition is_argsort (argsort : list R -> list nat) : Prop :=
  forall v : list R,
    Permutation (argsort v) (seq 0 (List.length v)) /\ ascending v (argsort v).

Definition value_ltb (v : list R) (i j : nat) : bool :=
  if Rlt_dec (nth i v 0%R) (nth j v 0%R) then true else false.

(** [numpy.argsort(v, kind="stable")]: equal values keep their order. *)
Definition stable_argsort (v : list R) : list nat :=
  PyList.sorted (value_ltb v) (seq 0 (List.length v)).

End Numpy.

(** ** [utils.py]: the similarity engine and the keyword extractor *)

Module Engine.
Import PyStr PyList Regex Sklearn.

Section Numpy.

(** [ENGLISH_STOP_WORDS] of scikit-learn. *)
Variable stop_words : list str.

(** [numpy.argsort]: the indices that sort an array in increasing
    order.  How it orders equal values is not fixed (the default kind
    is not stable), so it is a parameter, of which the properties assume
    [Numpy.is_argsort]. *)
Variable argsort : list R -> list nat.

(** The row [i] of [X], as an array. *)
Definition row (X : list (list R)) (i : nat) : list R := nth i X [].

Definition compute_match_score (resume_clean jd_clean : str)
  : result (R * list str) :=
  '(terms, X) <- fit_transform stop_words [jd_clean; resume_clean] ;;
  let sim := cosine_similarity (row X 0) (row X 1) in
  let jd_vec := row X 0 in
  let top_idx := rev (slice_from (-15) (argsort jd_vec)) in
  top_terms <- select (fun _ => true) terms top_idx ;;
  let score := sim in
  Ok (score, top_terms).

(** The sort key [(-len(x.split()), x)] and [<] on two keys. *)
Definition keyword_key (x : str) : Z * str :=
  ((- Z.of_nat (List.length (split x)))%Z, x).

Definition key_ltb (a b : Z * str) : bool :=
  (fst a <? fst b)%Z || ((fst a =? fst b)%Z && ltb (snd a) (snd b)).

Definition keyword_ltb (x y : str) : bool :=
  key_ltb (keyword_key x) (keyword_key y).

(** [[a-z0-9]] *)
Definition alnum_re : regex :=
  Class (fun c => is_lower c || is_digit c).

Definition extract_keywords (jd_clean : str) (top_k : Z)
  : result (list str) :=
  '(terms, X) <- fit_transform stop_words [jd_clean] ;;
  let arr := List.concat X in
  let idx := rev (slice_from (- top_k) (argsort arr)) in
  kws <- select (search alnum_re) terms idx ;;
  let kws_sorted := sorted keyword_ltb kws in
  Ok kws_sorted.

End Numpy.

End Engine.

(** Some of the words of [ENGLISH_STOP_WORDS], for the examples. *)
Definition stop_words_excerpt : list str :=
  [ txt "a"; txt "an"; txt "and"; txt "are"; txt "for"; txt "in"; txt "is";
    txt "of"; txt "the"; txt "to"; txt "we"; txt "with" ].

(** ** [utils.py]: the text extractors

    The two document libraries are not part of the repository.  A PDF is
    given by what [page.extract_text()] returns for each of its pages (a
    text, or [None]), a DOCX by its paragraphs. *)

Module Extract.
Import PyStr.






End Extract.

(** ** [app.py]: the keyword coverage *)

Module App.
Import PyStr.

(** [resume_file.name.lower().split(".")[-1]] *)
Definition file_ext (name : str) : result str :=
  PyList.get_last (split_on "." (lower name)).

Definition present (jd_keywords : list str) (resume_clean : str) : list str :=
  filter (fun k => contains (lower k) resume_clean) jd_keywords.

Definition missing (jd_keywords : list str) (resume_clean : str) : list str :=
  filter (fun k => negb (contains (lower k) resume_clean)) jd_keywords.

(** What the handler of the Analyze button ends with: the warning or the
    error of one of its two guards ([st.stop()] follows), or the results
    it displays. *)
Inductive outcome : Type :=
| Warned (message : str)
| Failed (message : str)
| Reported (match_score : R) (jd_keywords present missing : list str)
    (ats_report : Utils.report) (suggestions : list str).

(** [not s.strip()], for a text of ASCII characters ([str.strip] also
    strips the white space outside ASCII). *)
Definition is_blank (s : str) : bool :=
  match strip s with
  | [] => true
  | _ :: _ => false
  end.

Section Handler.

Variable stop_words : list str.
Variable argsort : list R -> list nat.

(** The steps of the handler from its second guard on, for an uploaded
    file of extension [ext] whose text was read as [resume_text], with the
    test of the job description of the first guard.  The test
    [not resume_file] of the first guard and the reading of the file,
    which raises on a file the library cannot parse, come before and are
    not part of it.  An exception of the analysis is not caught. *)
Definition analyze (resume_text ext jd_text : str) : result outcome :=
  if is_blank jd_text then
    Ok (Warned (txt "Please upload a resume and paste a job description."))
  else if is_blank resume_text then
    Ok (Failed (txt "Could not extract text from the resume (is it a scanned image?). Try a different file."))
  else
    let resume_clean := Normalizer.clean_text resume_text in
    let jd_clean := Normalizer.clean_text jd_text in
    '(match_score, top_terms) <-
      Engine.compute_match_score stop_words argsort resume_clean jd_clean ;;
    jd_keywords <- Engine.extract_keywords stop_words argsort jd_clean 40 ;;
    let present := present jd_keywords resume_clean in
    let missing := missing jd_keywords resume_clean in
    let ats_report := Utils.ats_checks resume_text ext in
    let suggestions :=
      Utils.suggest_improvements match_score present missing ats_report in
    Ok (Reported match_score jd_keywords present missing ats_report suggestions).

End Handler.

End App.

(** ** The specification's wording of the phone pattern

    Written from the specification's words, to be compared with the
    pattern of the source: "a phone-number-like digit sequence (7+ digits,
    optionally separated by spaces/hyphens, optional leading +)". *)

Module SpecWords.
Import PyStr Regex.

Definition separator (c : ascii) : bool := is_char " " c || is_char "-" c.

(** An optional [+], a digit, then six digits or more, each after any
    number of separators. *)
Definition spec_phone_re : regex :=
  Cat (Opt (Lit "+"))
    (Cat (Class is_digit)
       (AtLeast 6 (Cat (Star (Class separator)) (Class is_digit)))).

Definition spec_contact_ok (text : str) : bool :=
  search Utils.email_re text && search spec_phone_re text.

End SpecWords.

(** ** The vocabulary of the properties *)

Module Notions.
Import PyStr Regex Utils Sklearn.

(** The [ValueError] of a vectorizer left without term. *)
Definition empty_vocabulary : exn :=
  ValueError "empty vocabulary; perhaps the documents only contain stop words".

(** The characters of the allow-list of the normalizer. *)
Definition allowedP (c : ascii) : Prop := Normalizer.allowed c = true.

(** White space occurs only as single spaces; [prev] tells that the
    character before is a space. *)
Fixpoint spaced (prev : bool) (s : str) : Prop :=
  match s with
  | [] => True
  | c :: s' =>
      if is_space c
      then c = " "%char /\ prev = false /\ spaced true s'
      else spaced false s'
  end.

(** [m] occurs in [s] at the start; anywhere. *)
Definition prefix_of (m s : str) : Prop := exists post, s = m ++ post.
Definition occurs_in (m s : str) : Prop := exists pre post, s = pre ++ m ++ post.




(** The two headings "Work Experience" and "Technical Skills", on two
    lines, give four hints. *)
Definition two_headings : str :=
  txt "Work Experience" ++ [ascii_of_nat 10] ++ txt "Technical Skills".

(** The reports of the two examples of the specification for the
    suggestions. *)
Definition all_ok_report : report :=
  [ (txt "File Type", {| ok := true; msg := txt "m1" |});
    (txt "Dates Present", {| ok := true; msg := txt "m2" |}) ].

Definition one_failing_report : report :=
  [ (txt "File Type", {| ok := true; msg := txt "m1" |});
    (txt "Dates Present", {| ok := false; msg := txt "m2" |}) ].

(** The order of the keywords, in words: more words first, then
    alphabetically. *)
Definition word_count (x : str) : nat := List.length (split x).

Definition keyword_order (x y : str) : Prop :=
  word_count y < word_count x \/
  (word_count x = word_count y /\ leb x y = true).

(** [x] is not above [y], for [lt] a test of [<]. *)
Definition le {A : Type} (lt : A -> A -> bool) (x y : A) : Prop :=
  lt y x = false.

(** A keyword kept by the filter holds a lower-case letter or a digit. *)
Definition has_alnum (k : str) : Prop :=
  exists c, In c k /\ (is_lower c || is_digit c) = true.

(** A text of ASCII characters only. *)
Definition ascii_text (s : str) : Prop := forallb is_ascii s = true.


(** [x < y] on strings. *)
Definition strictly (x y : str) : Prop := ltb x y = true.

(** A character the normalizer keeps as it is or lowers: a letter, a
    digit, or one of [+ # . - ( )]. *)
Definition visible (c : ascii) : bool :=
  is_alpha c || is_digit c || is_char "+" c || is_char "#" c ||
  is_char "." c || is_char "-" c || is_char "(" c || is_char ")" c.

(** A character of a normalized text: a lower-case letter, a digit, one of
    [+ # . - ( )], or the space. *)
Definition normal_char (c : ascii) : bool :=
  is_lower c || is_digit c || is_char "+" c || is_char "#" c ||
  is_char "." c || is_char "-" c || is_char "(" c || is_char ")" c ||
  is_char " " c.

(** The alternatives of the bullet pattern. *)
Definition bullets : list str := [bullet_glyph; txt "- "; txt "* "].

(** A bullet marker (the glyph, [- ] or [* ]) starts at the head of [s];
    the number of positions of [s] where one starts. *)
Definition marker_at (s : str) : bool :=
  starts_with bullet_glyph s || starts_with (txt "- ") s ||
  starts_with (txt "* ") s.

Fixpoint count_markers (s : str) : nat :=
  match s with
  | [] => 0
  | _ :: s' => (if marker_at s then 1 else 0) + count_markers s'
  end.


Local Open Scope R_scope.

Definition nonneg (v : list R) : Prop := Forall (fun x => 0 <= x) v.

(** At every position one of the two vectors is zero. *)
Definition disjoint (u v : list R) : Prop :=
  Forall2 (fun x y => x = 0 \/ y = 0) u v.

(** The weights of a document before its row is normalized. *)
Definition weights (docs : list (list str)) (terms d : list str) : list R :=
  map (fun t => INR (count t d) * idf docs t) terms.

End Notions.

(* ================================================================== *)
(** * Properties *)
(* ================================================================== *)

(** Case analysis on the 256 characters. *)
Ltac each_char c :=
  destruct c as [[|] [|] [|] [|] [|] [|] [|] [|]];
  vm_compute; try reflexivity; try discriminate; auto.

Module StrFacts.
Import PyStr.

Lemma drop_while_split (p : ascii -> bool) (s : str) :
  exists pre, s = pre ++ drop_while p s /\ Forall (fun c => p c = true) pre.
Proof.
  induction s as [|c s IH]; simpl.
  - exists []. split; [reflexivity | constructor].
  - destruct (p c) eqn:Hc.
    + destruct IH as [pre [E F]]. exists (c :: pre). split.
      * simpl. now rewrite <- E.
      * now constructor.
    + exists []. split; [reflexivity | constructor].
Qed.

Lemma drop_while_head (p : ascii -> bool) (s : str) :
  match drop_while p s with
  | [] => True
  | c :: _ => p c = false
  end.
Proof.
  induction s as [|c s IH]; simpl; [exact I|].
  destruct (p c) eqn:Hc; [exact IH | exact Hc].
Qed.

Lemma drop_while_fixed (p : ascii -> bool) (s : str) :
  match s with [] => True | c :: _ => p c = false end ->
  drop_while p s = s.
Proof. destruct s as [|c s]; simpl; [easy|]. now intros ->. Qed.

Lemma drop_while_idem (p : ascii -> bool) (s : str) :
  drop_while p (drop_while p s) = drop_while p s.
Proof. apply drop_while_fixed, drop_while_head. Qed.

(** [rstrip] keeps a prefix and removes only white space. *)
Lemma rstrip_split (s : str) :
  exists post, s = rstrip s ++ post /\ Forall (fun c => is_space c = true) post.
Proof.
  unfold rstrip.
  destruct (drop_while_split is_space (rev s)) as [pre [E F]].
  exists (rev pre). split.
  - rewrite <- rev_app_distr, <- E. now rewrite rev_involutive.
  - apply Forall_rev, F.
Qed.

Lemma lstrip_split (s : str) :
  exists pre, s = pre ++ lstrip s /\ Forall (fun c => is_space c = true) pre.
Proof. apply drop_while_split. Qed.

Lemma rstrip_idem (s : str) : rstrip (rstrip s) = rstrip s.
Proof. unfold rstrip. now rewrite rev_involutive, drop_while_idem. Qed.

(** Stripping a stripped string changes nothing. *)
Lemma strip_idem (s : str) : strip (strip s) = strip s.
Proof.
  unfold strip.
  assert (H : lstrip (rstrip (lstrip s)) = rstrip (lstrip s)).
  { apply drop_while_fixed.
    destruct (rstrip_split (lstrip s)) as [post [E _]].
    pose proof (drop_while_head is_space s) as Hh. fold (lstrip s) in Hh.
    destruct (rstrip (lstrip s)) as [|c r]; [exact I|].
    rewrite E in Hh. exact Hh. }
  rewrite H. apply rstrip_idem.
Qed.

Lemma strip_Forall (P : ascii -> Prop) (s : str) :
  Forall P s -> Forall P (strip s).
Proof.
  intros F. unfold strip.
  destruct (lstrip_split s) as [pre [E1 _]].
  destruct (rstrip_split (lstrip s)) as [post [E2 _]].
  rewrite E1 in F. apply Forall_app in F as [_ F].
  rewrite E2 in F. now apply Forall_app in F as [F _].
Qed.

End StrFacts.

Module NormalizerFacts.
Import PyStr Normalizer Notions StrFacts.

Example clean_text_example :
  clean_text (txt "  Hello,  World!	C++ & C#  ") = txt "hello world c++ c#".
Proof. reflexivity. Qed.

Lemma allowed_lower_char (c : ascii) : allowed c = true -> lower_char c = c.
Proof. each_char c. Qed.

Lemma allowed_space : allowed " " = true.
Proof. reflexivity. Qed.

Lemma spaced_weaken (b : bool) (s : str) : spaced b s -> spaced false s.
Proof.
  destruct s as [|c s]; simpl; [easy|].
  destruct (is_space c); [|easy]. intros [E [_ H]]. easy.
Qed.

Lemma spaced_tail (b : bool) (c : ascii) (s : str) :
  spaced b (c :: s) -> spaced false s.
Proof.
  simpl. destruct (is_space c).
  - intros [_ [_ H]]. eapply spaced_weaken, H.
  - easy.
Qed.

Lemma spaced_suffix (pre s : str) (b : bool) :
  spaced b (pre ++ s) -> spaced false s.
Proof.
  revert b. induction pre as [|c pre IH]; intros b H.
  - eapply spaced_weaken, H.
  - simpl app in H. apply spaced_tail in H. eapply IH, H.
Qed.

Lemma spaced_prefix (s post : str) (b : bool) :
  spaced b (s ++ post) -> spaced b s.
Proof.
  revert b. induction s as [|c s IH]; intros b; simpl; [easy|].
  destruct (is_space c).
  - intros [E [Hb H]]. repeat split; auto.
  - apply IH.
Qed.

Lemma sub_spaces_from_spaced (b : bool) (t : str) :
  spaced b (sub_spaces_from b t).
Proof.
  revert b. induction t as [|c t IH]; intros b; simpl; [exact I|].
  destruct (is_space c) eqn:Hc.
  - destruct b; [apply IH|]. simpl. repeat split. apply IH.
  - simpl. rewrite Hc. apply IH.
Qed.

Lemma sub_spaces_from_fixed (b : bool) (s : str) :
  spaced b s -> sub_spaces_from b s = s.
Proof.
  revert b. induction s as [|c s IH]; intros b; simpl; [easy|].
  destruct (is_space c).
  - intros [-> [-> H]]. f_equal. now apply IH.
  - intros H. f_equal. now apply IH.
Qed.

Lemma sub_disallowed_allowed (t : str) : Forall allowedP (sub_disallowed t).
Proof.
  unfold sub_disallowed. apply Forall_map, Forall_forall. intros c _.
  unfold allowedP. destruct (allowed c) eqn:E; [exact E | reflexivity].
Qed.

Lemma sub_spaces_from_allowed (b : bool) (t : str) :
  Forall allowedP t -> Forall allowedP (sub_spaces_from b t).
Proof.
  intros F. revert b. induction F as [|c t Hc F IH]; intros b; simpl.
  - constructor.
  - destruct (is_space c); [destruct b|]; auto.
    constructor; [reflexivity | apply IH].
Qed.

Lemma sub_disallowed_fixed (s : str) :
  Forall allowedP s -> sub_disallowed s = s.
Proof.
  unfold sub_disallowed.
  induction 1 as [|c s Hc _ IH]; simpl; [reflexivity|].
  rewrite Hc. now f_equal.
Qed.

Lemma lower_fixed (s : str) : Forall allowedP s -> lower s = s.
Proof.
  unfold lower.
  induction 1 as [|c s Hc _ IH]; simpl; [reflexivity|].
  rewrite (allowed_lower_char _ Hc). now f_equal.
Qed.

(** The output of the normalizer: allow-listed characters only, white
    space only as single spaces, nothing to strip. *)
Lemma clean_text_allowed (t : str) : Forall allowedP (clean_text t).
Proof.
  unfold clean_text.
  apply strip_Forall, sub_spaces_from_allowed, sub_disallowed_allowed.
Qed.

Lemma clean_text_spaced (t : str) : spaced false (clean_text t).
Proof.
  unfold clean_text, strip.
  set (u := sub_spaces (sub_disallowed (lower t))).
  assert (Hu : spaced false u) by apply sub_spaces_from_spaced.
  destruct (lstrip_split u) as [pre [E1 _]].
  destruct (rstrip_split (lstrip u)) as [post [E2 _]].
  rewrite E1 in Hu. apply spaced_suffix in Hu.
  rewrite E2 in Hu. eapply spaced_prefix, Hu.
Qed.

Lemma clean_text_stripped (t : str) : strip (clean_text t) = clean_text t.
Proof. unfold clean_text. apply strip_idem. Qed.

End NormalizerFacts.

(** ** The regular-expression engine decides the language *)

Module RegexFacts.
Import PyStr Regex Notions.

Lemma cat_inv (r s : regex) (w : str) :
  matches (Cat r s) w ->
  exists u v, w = u ++ v /\ matches r u /\ matches s v.
Proof. intros H. inversion H; subst. eauto. Qed.

Lemma alt_inv (r s : regex) (w : str) :
  matches (Alt r s) w -> matches r w \/ matches s w.
Proof. intros H. inversion H; subst; auto. Qed.

Lemma class_inv (p : ascii -> bool) (w : str) :
  matches (Class p) w -> exists c, w = [c] /\ p c = true.
Proof. intros H. inversion H; subst. eauto. Qed.

Lemma eps_inv (w : str) : matches Eps w -> w = [].
Proof. intros H. now inversion H. Qed.

Lemma void_inv (w : str) : ~ matches Void w.
Proof. intros H. inversion H. Qed.

Lemma cat_spec (r s : regex) (w : str) :
  matches (cat r s) w <-> matches (Cat r s) w.
Proof.
  split.
  - intros H.
    destruct r; simpl in H;
      try (now apply void_inv in H);
      destruct s; simpl in H;
      try (now apply void_inv in H);
      try exact H;
      try (change w with ([] ++ w); constructor; [constructor | exact H]).
  - intros H. apply cat_inv in H as [u [v [-> [Hu Hv]]]].
    destruct r; simpl;
      try (now apply void_inv in Hu);
      destruct s; simpl;
      try (now apply void_inv in Hv);
      try (now constructor);
      apply eps_inv in Hu; subst; exact Hv.
Qed.

Lemma alt_spec (r s : regex) (w : str) :
  matches (alt r s) w <-> matches (Alt r s) w.
Proof.
  split.
  - intros H.
    destruct r; simpl in H;
      try (now apply MAltR);
      destruct s; simpl in H;
      try (now apply MAltL); exact H.
  - intros H. apply alt_inv in H as [H | H].
    + destruct r; simpl;
        try (now apply void_inv in H);
        destruct s; simpl; try exact H; now apply MAltL.
    + destruct r; simpl; try exact H;
        destruct s; simpl;
        try (now apply void_inv in H); now apply MAltR.
Qed.

Lemma nullable_spec (r : regex) : nullable r = true <-> matches r [].
Proof.
  induction r as [| |p|r IHr s IHs|r IHr s IHs|r IHr]; simpl.
  - split; [discriminate | intros H; now apply void_inv in H].
  - split; [constructor | reflexivity].
  - split; [discriminate|]. intros H. apply class_inv in H as [c [E _]].
    discriminate.
  - rewrite andb_true_iff, IHr, IHs. split.
    + intros [Hr Hs]. change (@nil ascii) with (@nil ascii ++ []).
      now constructor.
    + intros H. apply cat_inv in H as [u [v [E [Hu Hv]]]].
      symmetry in E. apply app_eq_nil in E as [-> ->]. now split.
  - rewrite orb_true_iff, IHr, IHs. split.
    + intros [H | H]; [now apply MAltL | now apply MAltR].
    + apply alt_inv.
  - split; [constructor | reflexivity].
Qed.

(** A non-empty word of [r*] starts with a non-empty word of [r]. *)
Lemma star_cons (r : regex) (c : ascii) (w : str) :
  matches (Star r) (c :: w) ->
  exists u v, w = u ++ v /\ matches r (c :: u) /\ matches (Star r) v.
Proof.
  intros H. remember (Star r) as sr eqn:Esr. remember (c :: w) as cw eqn:Ecw.
  revert c w Ecw.
  induction H as [| | | | | |r' u v Hu _ Hv IH]; intros c0 w0 Ecw;
    try discriminate.
  injection Esr as ->.
  destruct u as [|a u].
  - simpl in Ecw. now apply IH.
  - simpl in Ecw. injection Ecw as E1 E2. subst a w0. eauto.
Qed.

Lemma deriv_spec (c : ascii) (r : regex) (w : str) :
  matches (deriv c r) w <-> matches r (c :: w).
Proof.
  revert w.
  induction r as [| |p|r IHr s IHs|r IHr s IHs|r IHr]; intros w; simpl.
  - split; intros H; now apply void_inv in H.
  - split; intros H; [now apply void_inv in H|].
    apply eps_inv in H. discriminate.
  - destruct (p c) eqn:Hp; split; intros H.
    + apply eps_inv in H. subst. now constructor.
    + apply class_inv in H as [c' [E _]]. injection E as -> ->. constructor.
    + now apply void_inv in H.
    + apply class_inv in H as [c' [E Hc]]. injection E as -> ->. congruence.
  - assert (Hcat : matches (cat (deriv c r) s) w <->
                   exists u v, w = u ++ v /\ matches r (c :: u) /\ matches s v).
    { rewrite cat_spec. split.
      - intros H. apply cat_inv in H as [u [v [-> [Hu Hv]]]].
        apply IHr in Hu. eauto.
      - intros [u [v [-> [Hu Hv]]]]. constructor; [now apply IHr | exact Hv]. }
    destruct (nullable r) eqn:Hn.
    + rewrite alt_spec. split.
      * intros H. apply alt_inv in H as [H | H].
        -- apply Hcat in H as [u [v [-> [Hu Hv]]]].
           change (c :: u ++ v) with ((c :: u) ++ v). now constructor.
        -- apply IHs in H. change (c :: w) with ([] ++ c :: w).
           constructor; [now apply nullable_spec | exact H].
      * intros H. apply cat_inv in H as [u [v [E [Hu Hv]]]].
        destruct u as [|a u].
        -- simpl in E. subst v. apply MAltR. now apply IHs.
        -- simpl in E. injection E as -> ->. apply MAltL, Hcat. eauto.
    + rewrite Hcat. split.
      * intros [u [v [-> [Hu Hv]]]].
        change (c :: u ++ v) with ((c :: u) ++ v). now constructor.
      * intros H. apply cat_inv in H as [u [v [E [Hu Hv]]]].
        destruct u as [|a u].
        -- apply nullable_spec in Hu. congruence.
        -- simpl in E. injection E as -> ->. eauto.
  - rewrite alt_spec. split; intros H; apply alt_inv in H as [H | H].
    + apply MAltL. now apply IHr.
    + apply MAltR. now apply IHs.
    + apply MAltL. now apply IHr.
    + apply MAltR. now apply IHs.
  - rewrite cat_spec. split.
    + intros H. apply cat_inv in H as [u [v [-> [Hu Hv]]]].
      apply IHr in Hu. change (c :: u ++ v) with ((c :: u) ++ v).
      now constructor.
    + intros H. apply star_cons in H as [u [v [-> [Hu Hv]]]].
      constructor; [now apply IHr | exact Hv].
Qed.

Lemma match_prefix_spec (r : regex) (s : str) :
  match_prefix r s = true <-> exists m, prefix_of m s /\ matches r m.
Proof.
  revert r. induction s as [|c s IH]; intros r; simpl.
  - rewrite orb_false_r, nullable_spec. split.
    + intros H. exists []. split; [now exists [] | exact H].
    + intros [m [[post E] H]]. symmetry in E.
      apply app_eq_nil in E as [-> _]. exact H.
  - rewrite orb_true_iff, nullable_spec, IH. split.
    + intros [H | [m [[post E] H]]].
      * exists []. split; [now exists (c :: s) | exact H].
      * exists (c :: m). split; [exists post; now rewrite E|].
        now apply deriv_spec.
    + intros [m [[post E] H]]. destruct m as [|a m].
      * now left.
      * simpl in E. injection E as -> ->. right. exists m.
        split; [now exists post | now apply deriv_spec].
Qed.

(** [re.search] succeeds exactly when a substring of the text is in the
    language of the pattern. *)
Theorem search_spec (r : regex) (s : str) :
  search r s = true <-> exists m, occurs_in m s /\ matches r m.
Proof.
  induction s as [|c s IH]; cbn [search].
  - rewrite orb_false_r, match_prefix_spec. split.
    + intros [m [[post E] H]]. exists m. split; [now exists [], post | exact H].
    + intros [m [[pre [post E]] H]]. exists m. split; [|exact H].
      symmetry in E. apply app_eq_nil in E as [-> E].
      apply app_eq_nil in E as [-> ->]. now exists [].
  - rewrite orb_true_iff, match_prefix_spec, IH. split.
    + intros [[m [[post E] H]] | [m [[pre [post E]] H]]].
      * exists m. split; [now exists [], post | exact H].
      * exists m. split; [exists (c :: pre), post; now rewrite E | exact H].
    + intros [m [[pre [post E]] H]]. destruct pre as [|a pre].
      * left. exists m. split; [now exists post | exact H].
      * simpl in E. injection E as -> ->. right. exists m.
        split; [now exists pre, post | exact H].
Qed.

(** The languages of the shapes the source's patterns are made of. *)
Lemma lit_spec (a : ascii) (w : str) : matches (Lit a) w <-> w = [a].
Proof.
  unfold Lit. split.
  - intros H. apply class_inv in H as [c [-> Hc]].
    apply Ascii.eqb_eq in Hc. now subst.
  - intros ->. constructor. apply Ascii.eqb_refl.
Qed.




End RegexFacts.

(** ** The structural checks *)

Module CheckFacts.
Import PyStr Regex Utils Notions RegexFacts.

Lemma starts_with_spec (p s : str) :
  starts_with p s = true <-> prefix_of p s.
Proof.
  revert s. induction p as [|x p IH]; intros s; simpl.
  - split; [intros _; now exists s | reflexivity].
  - destruct s as [|y s].
    + split; [discriminate | intros [post E]; discriminate].
    + rewrite andb_true_iff, Ascii.eqb_eq, IH. split.
      * intros [-> [post ->]]. now exists post.
      * intros [post E]. simpl in E. injection E as E1 E2. subst.
        split; [reflexivity | now exists post].
Qed.

(** [p in s] holds exactly when [p] is a substring of [s]. *)
Lemma contains_spec (p s : str) :
  contains p s = true <-> occurs_in p s.
Proof.
  induction s as [|c s IH]; cbn [contains].
  - rewrite orb_false_r, starts_with_spec. split.
    + intros [post E]. now exists [], post.
    + intros [pre [post E]]. symmetry in E.
      apply app_eq_nil in E as [-> E]. apply app_eq_nil in E as [-> ->].
      now exists [].
  - rewrite orb_true_iff, starts_with_spec, IH. split.
    + intros [[post E] | [pre [post E]]].
      * now exists [], post.
      * exists (c :: pre), post. now rewrite E.
    + intros [pre [post E]]. destruct pre as [|a pre].
      * left. now exists post.
      * simpl in E. injection E as E1 E2. subst. right. now exists pre, post.
Qed.

Lemma occurs_in_part (a m b s : str) :
  occurs_in (a ++ m ++ b) s -> occurs_in m s.
Proof.
  intros [pre [post ->]]. exists (pre ++ a), (b ++ post).
  now rewrite <- !app_assoc.
Qed.




Lemma clear_sections_entry (text ext : str) :
  check_ok (txt "Clear Sections") (ats_checks text ext)
  = Some (3 <=? List.length (has_sections text)).
Proof. reflexivity. Qed.

Lemma has_sections_In (hint text : str) :
  In hint SECTION_HINTS -> contains hint (lower text) = true ->
  In hint (has_sections text).
Proof. intros Hh Hc. unfold has_sections. apply filter_In. now split. Qed.

(** The steps of the loop over the report only add at the end. *)
Lemma ats_loop (r : report) (acc : list str) :
  fold_left
    (fun acc kv =>
       let '(k, v) := kv in
       if negb (ok v) then acc ++ [ats_suggestion k v] else acc) r acc
  = acc ++ map (fun kv => ats_suggestion (fst kv) (snd kv))
             (filter (fun kv => negb (ok (snd kv))) r).
Proof.
  revert acc. induction r as [|[k v] r IH]; intros acc; simpl.
  - now rewrite app_nil_r.
  - rewrite IH. destruct (negb (ok v)); simpl; [|reflexivity].
    now rewrite <- app_assoc.
Qed.

Example suggestions_of_good_match :
  suggest_improvements 0.80 [] [] all_ok_report = general_suggestions.
Proof.
  unfold suggest_improvements.
  destruct (Rlt_dec 0.80 0.45); [lra|].
  destruct (Rlt_dec 0.80 0.65); [lra|]. reflexivity.
Qed.

Example suggestions_of_poor_match :
  suggest_improvements 0.30 [] [txt "a"; txt "b"] one_failing_report
  = [ low_score_suggestion;
      txt "Incorporate missing role-specific keywords where accurate: a, b.";
      txt "ATS: m2 (Improve: Dates Present)." ]
    ++ general_suggestions.
Proof.
  unfold suggest_improvements.
  destruct (Rlt_dec 0.30 0.45); [|lra]. reflexivity.
Qed.

(** The end-to-end example of the specification: Contact Info and Dates
    Present are ok, Bullet Structure is not (two bullets). *)
Example end_to_end_checks :
  map (fun kv => ok (snd kv))
    (ats_checks
       (txt "python developer with 5 years experience, email: x@y.com, phone 555-123-4567, skills: python, sql • built systems • 2020-2023")
       (txt "txt"))
  = [false; true; false; false; true; true].
Proof. reflexivity. Qed.

End CheckFacts.

(** ** Orders and the stable sort *)

Module OrderFacts.
Import PyStr PyList Notions.

Lemma code_inj (a b : ascii) : code a = code b -> a = b.
Proof.
  unfold code. intros H.
  rewrite <- (ascii_nat_embedding a), <- (ascii_nat_embedding b).
  now rewrite H.
Qed.

Lemma str_eqb_eq (a b : str) : str_eqb a b = true <-> a = b.
Proof.
  revert b. induction a as [|x a IH]; intros [|y b]; simpl;
    try (split; [reflexivity || discriminate | reflexivity || discriminate]).
  rewrite andb_true_iff, Ascii.eqb_eq, IH.
  split; [intros [-> ->]; reflexivity | intros E; injection E; auto].
Qed.

Lemma str_eqb_refl (a : str) : str_eqb a a = true.
Proof. now apply str_eqb_eq. Qed.

(** Of two strings one is below the other, or they are equal. *)
Lemma ltb_trichotomy (a b : str) :
  (ltb a b = true /\ ltb b a = false) \/
  (a = b /\ ltb a b = false /\ ltb b a = false) \/
  (ltb b a = true /\ ltb a b = false).
Proof.
  revert b. induction a as [|x a IH]; intros [|y b]; simpl; auto.
  destruct (lt_eq_lt_dec (code x) (code y)) as [[H | H] | H].
  - left.
    rewrite (proj2 (Nat.ltb_lt _ _) H).
    rewrite (proj2 (Nat.ltb_ge _ _) (Nat.lt_le_incl _ _ H)).
    rewrite (proj2 (Nat.eqb_neq (code y) (code x))) by lia.
    auto.
  - rewrite H, Nat.ltb_irrefl, Nat.eqb_refl. simpl.
    apply code_inj in H. subst y.
    destruct (IH b) as [[H1 H2] | [[-> [H1 H2]] | [H1 H2]]]; auto.
  - right. right.
    rewrite (proj2 (Nat.ltb_lt _ _) H).
    rewrite (proj2 (Nat.ltb_ge _ _) (Nat.lt_le_incl _ _ H)).
    rewrite (proj2 (Nat.eqb_neq (code x) (code y))) by lia.
    auto.
Qed.

Lemma ltb_irrefl (a : str) : ltb a a = false.
Proof.
  destruct (ltb_trichotomy a a) as [[H1 H2] | [[_ [H _]] | [H1 H2]]];
    congruence.
Qed.

Lemma ltb_trans (a b c : str) :
  ltb a b = true -> ltb b c = true -> ltb a c = true.
Proof.
  revert b c. induction a as [|x a IH]; intros [|y b] [|z c]; simpl;
    try discriminate; auto.
  rewrite !orb_true_iff, !andb_true_iff, !Nat.ltb_lt, !Nat.eqb_eq.
  intros [H1 | [H1 H1']] [H2 | [H2 H2']].
  - left. lia.
  - left. lia.
  - left. lia.
  - right. split; [lia | eauto].
Qed.

Lemma keyword_ltb_spec (x y : str) :
  Engine.keyword_ltb x y = true <->
  word_count y < word_count x \/
  (word_count x = word_count y /\ ltb x y = true).
Proof.
  unfold Engine.keyword_ltb, Engine.key_ltb, Engine.keyword_key. simpl.
  fold (word_count x). fold (word_count y).
  rewrite orb_true_iff, andb_true_iff, Z.ltb_lt, Z.eqb_eq.
  split; intros [H | [H H']]; (left; lia) || (right; split; [lia | exact H']).
Qed.

Lemma keyword_order_spec (x y : str) :
  Engine.keyword_ltb y x = false <-> keyword_order x y.
Proof.
  unfold keyword_order, leb.
  pose proof (keyword_ltb_spec y x) as S.
  destruct (Engine.keyword_ltb y x) eqn:E.
  - split; [discriminate|]. intros H. exfalso.
    destruct (proj1 S eq_refl) as [H1 | [H1 H2]];
      destruct H as [H | [H H']]; try lia.
    rewrite H2 in H'. discriminate.
  - split; [intros _ | reflexivity].
    destruct (lt_eq_lt_dec (word_count x) (word_count y)) as [[H | H] | H].
    + assert (false = true) by (apply S; auto). discriminate.
    + right. split; [exact H|].
      destruct (ltb y x) eqn:L; [|reflexivity].
      assert (false = true) by (apply S; auto). discriminate.
    + now left.
Qed.

Lemma keyword_order_trans (x y z : str) :
  keyword_order x y -> keyword_order y z -> keyword_order x z.
Proof.
  unfold keyword_order, leb.
  intros [H1 | [H1 L1]] [H2 | [H2 L2]]; try (left; lia).
  right. split; [lia|].
  apply negb_true_iff in L1, L2. apply negb_true_iff.
  destruct (ltb z x) eqn:E; [exfalso | reflexivity].
  destruct (ltb_trichotomy x y) as [[A B] | [[-> _] | [A B]]];
    try congruence.
  assert (ltb z y = true) by (eapply ltb_trans; eauto). congruence.
Qed.

Lemma keyword_order_antisym (x y : str) :
  keyword_order x y -> keyword_order y x -> x = y.
Proof.
  unfold keyword_order, leb.
  intros [H1 | [H1 L1]] [H2 | [H2 L2]]; try lia.
  apply negb_true_iff in L1, L2.
  destruct (ltb_trichotomy x y) as [[A B] | [[E _] | [A B]]]; congruence.
Qed.

Lemma keyword_ltb_asym (x y : str) :
  Engine.keyword_ltb x y = true -> Engine.keyword_ltb y x = false.
Proof.
  intros H. apply keyword_ltb_spec in H.
  destruct (Engine.keyword_ltb y x) eqn:E; [exfalso | reflexivity].
  apply keyword_ltb_spec in E.
  destruct H as [H | [H L]]; destruct E as [E | [E L']]; try lia.
  destruct (ltb_trichotomy x y) as [[A B] | [[_ [A B]] | [A B]]]; congruence.
Qed.

Section StableSort.

Variable A : Type.
Variable lt : A -> A -> bool.

Hypothesis lt_asym : forall x y, lt x y = true -> lt y x = false.
Hypothesis le_trans : forall x y z, le lt x y -> le lt y z -> le lt x z.

Lemma insert_perm (x : A) (l : list A) : Permutation (insert lt x l) (x :: l).
Proof.
  induction l as [|y l IH]; simpl; [reflexivity|].
  destruct (lt x y); [reflexivity|].
  rewrite IH. apply perm_swap.
Qed.

Lemma sorted_from_perm (l acc : list A) :
  Permutation (fold_left (fun acc x => insert lt x acc) l acc) (acc ++ l).
Proof.
  revert acc. induction l as [|x l IH]; intros acc; simpl.
  - now rewrite app_nil_r.
  - rewrite IH, insert_perm. apply Permutation_middle.
Qed.

Lemma sorted_perm (l : list A) : Permutation (sorted lt l) l.
Proof. apply (sorted_from_perm l []). Qed.

Lemma insert_sorted (x : A) (l : list A) :
  StronglySorted (le lt) l -> StronglySorted (le lt) (insert lt x l).
Proof.
  induction 1 as [|y l Hs IH Hy]; simpl.
  - constructor; constructor.
  - destruct (lt x y) eqn:E.
    + constructor; [now constructor|].
      constructor; [now apply lt_asym|].
      eapply Forall_impl; [|exact Hy]. intros z Hz.
      eapply le_trans; [apply lt_asym, E | exact Hz].
    + constructor; [exact IH|].
      eapply Permutation_Forall; [symmetry; apply insert_perm|].
      constructor; assumption.
Qed.

Lemma sorted_from_sorted (l acc : list A) :
  StronglySorted (le lt) acc ->
  StronglySorted (le lt) (fold_left (fun acc x => insert lt x acc) l acc).
Proof.
  revert acc. induction l as [|x l IH]; intros acc H; simpl; [exact H|].
  apply IH, insert_sorted, H.
Qed.

Lemma sorted_sorted (l : list A) : StronglySorted (le lt) (sorted lt l).
Proof. apply sorted_from_sorted. constructor. Qed.

End StableSort.

(** Two sorted lists with the same elements are the same list, when no two
    different elements are each before the other. *)
Lemma sorted_unique (A : Type) (R : A -> A -> Prop) :
  (forall x y, R x y -> R y x -> x = y) ->
  forall l1 l2 : list A,
    StronglySorted R l1 -> StronglySorted R l2 -> Permutation l1 l2 ->
    l1 = l2.
Proof.
  intros anti l1. induction l1 as [|h1 t1 IH]; intros l2 S1 S2 P.
  - apply Permutation_nil in P. now subst.
  - destruct l2 as [|h2 t2].
    + symmetry in P. apply Permutation_nil in P. discriminate.
    + inversion S1 as [|? ? S1' F1]; subst.
      inversion S2 as [|? ? S2' F2]; subst.
      assert (E : h1 = h2).
      { assert (I1 : In h1 (h2 :: t2))
          by (eapply Permutation_in; [exact P | now left]).
        assert (I2 : In h2 (h1 :: t1))
          by (eapply Permutation_in; [symmetry; exact P | now left]).
        destruct I1 as [I1 | I1]; [now symmetry|].
        destruct I2 as [I2 | I2]; [exact I2|].
        rewrite Forall_forall in F1, F2. apply anti; auto. }
      subst h2. f_equal. apply IH; auto.
      eapply Permutation_cons_inv, P.
Qed.

Lemma keywords_sorted (l : list str) :
  StronglySorted keyword_order (sorted Engine.keyword_ltb l).
Proof.
  assert (H : StronglySorted (le Engine.keyword_ltb)
                (sorted Engine.keyword_ltb l)).
  { apply sorted_sorted.
    - apply keyword_ltb_asym.
    - intros x y z. unfold le. rewrite !keyword_order_spec.
      apply keyword_order_trans. }
  induction H as [|x l' _ IH F]; constructor; [exact IH|].
  eapply Forall_impl; [|exact F]. intros y. apply keyword_order_spec.
Qed.

End OrderFacts.

(** ** The vector arithmetic *)

Module VectorFacts.
Import Sklearn Notions.
Local Open Scope R_scope.

Lemma sum_sq_nonneg (v : list R) : 0 <= sum_sq v.
Proof. induction v as [|x v IH]; simpl; [lra | nra]. Qed.

Lemma sum_sq_scale (k : R) (v : list R) :
  sum_sq (map (fun x => x * k) v) = k * k * sum_sq v.
Proof. induction v as [|x v IH]; simpl; [ring | rewrite IH; ring]. Qed.


(** Normalizing multiplies every entry by one positive number. *)
Lemma normalize_scale (v : list R) :
  exists k, 0 < k /\ normalize_l2 v = map (fun x => x * k) v /\
            (sum_sq v <> 0 -> k * k * sum_sq v = 1).
Proof.
  unfold normalize_l2. destruct (Req_dec_T (sum_sq v) 0) as [E | N].
  - exists 1. split; [lra|]. split; [|intros H; contradiction].
    rewrite <- (map_id v) at 1. apply map_ext. intros x. ring.
  - pose proof (sum_sq_nonneg v) as P.
    assert (Hs : 0 < sqrt (sum_sq v)) by (apply sqrt_lt_R0; lra).
    assert (Hq : sqrt (sum_sq v) * sqrt (sum_sq v) = sum_sq v)
      by (apply sqrt_sqrt; lra).
    remember (sqrt (sum_sq v)) as s eqn:Es.
    exists (/ s). split; [now apply Rinv_0_lt_compat|]. split.
    + apply map_ext. intros x. reflexivity.
    + intros _. rewrite <- Hq. field. lra.
Qed.

Lemma normalize_length (v : list R) :
  List.length (normalize_l2 v) = List.length v.
Proof.
  destruct (normalize_scale v) as [k [_ [-> _]]]. apply length_map.
Qed.

Lemma normalize_sum_sq (v : list R) :
  sum_sq v <> 0 -> sum_sq (normalize_l2 v) = 1.
Proof.
  intros N. destruct (normalize_scale v) as [k [_ [-> H]]].
  rewrite sum_sq_scale. now apply H.
Qed.

Lemma normalize_sum_sq_le (v : list R) : sum_sq (normalize_l2 v) <= 1.
Proof.
  destruct (Req_dec_T (sum_sq v) 0) as [E | N].
  - unfold normalize_l2. destruct (Req_dec_T (sum_sq v) 0); [lra | contradiction].
  - rewrite normalize_sum_sq by exact N. lra.
Qed.

Lemma normalize_nonneg (v : list R) : nonneg v -> nonneg (normalize_l2 v).
Proof.
  intros H. destruct (normalize_scale v) as [k [Hk [-> _]]].
  unfold nonneg in *. rewrite Forall_map.
  eapply Forall_impl; [|exact H]. intros x Hx. simpl. nra.
Qed.

Lemma normalize_disjoint (u v : list R) :
  disjoint u v -> disjoint (normalize_l2 u) (normalize_l2 v).
Proof.
  intros H.
  destruct (normalize_scale u) as [k [_ [-> _]]].
  destruct (normalize_scale v) as [k' [_ [-> _]]].
  induction H as [|x y u v [-> | ->] _ IH]; simpl; constructor; auto.
  - left. ring.
  - right. ring.
Qed.

Lemma dot_le (u v : list R) : 2 * dot u v <= sum_sq u + sum_sq v.
Proof.
  revert v. induction u as [|x u IH]; intros [|y v]; simpl.
  - lra.
  - pose proof (sum_sq_nonneg v). nra.
  - pose proof (sum_sq_nonneg u). nra.
  - pose proof (IH v) as Q. pose proof (Rle_0_sqr (x - y)) as S.
    unfold Rsqr in S. lra.
Qed.

Lemma dot_nonneg (u v : list R) : nonneg u -> nonneg v -> 0 <= dot u v.
Proof.
  intros Hu. revert v. induction Hu as [|x u Hx _ IH]; intros v Hv; simpl.
  - lra.
  - destruct Hv as [|y v Hy Hv]; [lra|]. pose proof (IH v Hv). nra.
Qed.


Lemma dot_disjoint (u v : list R) : disjoint u v -> dot u v = 0.
Proof.
  induction 1 as [|x y u v [-> | ->] _ IH]; simpl; [reflexivity | |];
    rewrite IH; ring.
Qed.

(** The cosine of two vectors without negative entries is in [0, 1]; it is
    1 for a vector that is not zero and itself, 0 for two vectors that are
    nowhere both non-zero. *)
Lemma cosine_bounds (x y : list R) :
  nonneg x -> nonneg y -> 0 <= cosine_similarity x y <= 1.
Proof.
  intros Hx Hy. unfold cosine_similarity. split.
  - apply dot_nonneg; now apply normalize_nonneg.
  - pose proof (dot_le (normalize_l2 x) (normalize_l2 y)).
    pose proof (normalize_sum_sq_le x). pose proof (normalize_sum_sq_le y).
    lra.
Qed.


Lemma cosine_disjoint (x y : list R) :
  disjoint x y -> cosine_similarity x y = 0.
Proof.
  intros H. unfold cosine_similarity. now apply dot_disjoint, normalize_disjoint.
Qed.

End VectorFacts.

(** ** The vectorizer *)

Module SklearnFacts.
Import PyStr Sklearn Notions OrderFacts VectorFacts.

Lemma str_eq_dec (a b : str) : {a = b} + {a <> b}.
Proof. apply list_eq_dec, ascii_dec. Qed.

Lemma insert_feature_In (t x : str) (l : list str) :
  In t (insert_feature x l) <-> t = x \/ In t l.
Proof.
  induction l as [|y l IH]; simpl.
  - intuition.
  - destruct (ltb x y); [simpl; intuition|].
    destruct (str_eqb x y) eqn:E.
    + apply str_eqb_eq in E. subst y. simpl. intuition.
    + simpl. rewrite IH. intuition.
Qed.

Lemma insert_feature_not_nil (x : str) (l : list str) : insert_feature x l <> [].
Proof.
  destruct l as [|y l]; simpl; [discriminate|].
  destruct (ltb x y); [discriminate|]. destruct (str_eqb x y); discriminate.
Qed.


Lemma count_zero (t : str) (d : list str) : ~ In t d -> count t d = 0.
Proof.
  intros H. unfold count.
  destruct (filter (str_eqb t) d) as [|x l] eqn:E; [reflexivity|].
  exfalso. assert (I : In x (filter (str_eqb t) d)) by (rewrite E; now left).
  apply filter_In in I as [I Hx]. apply str_eqb_eq in Hx. now subst.
Qed.

Section Vectorizer.

Variable stop_words : list str.


Lemma vocabulary_nil (docs : list (list str)) :
  vocabulary docs = [] <-> List.concat docs = [].
Proof.
  unfold vocabulary. destruct (List.concat docs) as [|x l]; simpl.
  - tauto.
  - split; [intros H | discriminate].
    now apply insert_feature_not_nil in H.
Qed.

(** The empty text has no feature. *)
Lemma analyze_empty : analyze stop_words [] = [].
Proof. reflexivity. Qed.

Local Open Scope R_scope.

Lemma idf_pos (docs : list (list str)) (t : str) : 0 < idf docs t.
Proof.
  unfold idf.
  assert (Hdf : (document_frequency docs t <= List.length docs)%nat)
    by apply filter_length_le.
  apply le_INR in Hdf.
  pose proof (pos_INR (document_frequency docs t)) as P.
  set (n := INR (List.length docs)) in *.
  set (df := INR (document_frequency docs t)) in *.
  assert (Hr : 1 <= (1 + n) / (1 + df)).
  { apply Rmult_le_reg_r with (1 + df); [lra|].
    unfold Rdiv. rewrite Rmult_assoc, Rinv_l by lra. lra. }
  destruct (Req_dec_T ((1 + n) / (1 + df)) 1) as [E | N].
  - rewrite E, ln_1. lra.
  - assert (ln 1 < ln ((1 + n) / (1 + df))) by (apply ln_increasing; lra).
    rewrite ln_1 in *. lra.
Qed.

Lemma tfidf_row_weights (docs : list (list str)) (terms d : list str) :
  tfidf_row docs terms d = normalize_l2 (weights docs terms d).
Proof. reflexivity. Qed.

Lemma tfidf_row_length (docs : list (list str)) (terms d : list str) :
  List.length (tfidf_row docs terms d) = List.length terms.
Proof. unfold tfidf_row. now rewrite normalize_length, length_map. Qed.

Lemma tfidf_row_nonneg (docs : list (list str)) (terms d : list str) :
  nonneg (tfidf_row docs terms d).
Proof.
  apply normalize_nonneg. unfold nonneg. rewrite Forall_map.
  apply Forall_forall. intros t _.
  pose proof (idf_pos docs t). pose proof (pos_INR (count t d)). nra.
Qed.


(** Two documents without a common feature have rows that are nowhere
    both non-zero. *)
Lemma tfidf_rows_disjoint (docs : list (list str)) (terms a b : list str) :
  (forall t, ~ (In t a /\ In t b)) ->
  disjoint (tfidf_row docs terms a) (tfidf_row docs terms b).
Proof.
  intros H. apply normalize_disjoint. unfold disjoint.
  induction terms as [|t terms IH]; simpl; constructor; [|exact IH].
  destruct (in_dec str_eq_dec t a) as [Ia | Na].
  - right. rewrite (count_zero t b); [simpl; ring|].
    intros Ib. now apply (H t).
  - left. rewrite (count_zero t a Na). simpl. ring.
Qed.

Lemma fit_transform_spec (raw_documents : list str) :
  let docs := map (analyze stop_words) raw_documents in
  (List.concat docs = [] ->
   fit_transform stop_words raw_documents
   = Raise (ValueError
       "empty vocabulary; perhaps the documents only contain stop words")) /\
  (List.concat docs <> [] ->
   fit_transform stop_words raw_documents
   = Ok (vocabulary docs, map (tfidf_row docs (vocabulary docs)) docs)).
Proof.
  intros docs. unfold fit_transform. fold docs.
  pose proof (vocabulary_nil docs) as N.
  destruct (vocabulary docs) as [|t terms].
  - split; [reflexivity|]. intros H. exfalso. now apply H, N.
  - split; [|reflexivity]. intros H. apply N in H. discriminate.
Qed.

End Vectorizer.

End SklearnFacts.

(** ** The similarity engine and the keyword extractor *)

Module EngineFacts.
Import PyStr PyList Regex Sklearn Engine Numpy Notions.
Import OrderFacts VectorFacts SklearnFacts RegexFacts.

Lemma skipn_Forall (A : Type) (P : A -> Prop) (n : nat) (l : list A) :
  Forall P l -> Forall P (skipn n l).
Proof.
  intros H. rewrite <- (firstn_skipn n l) in H.
  now apply Forall_app in H as [_ H].
Qed.

Lemma slice_from_Forall (A : Type) (P : A -> Prop) (start : Z) (l : list A) :
  Forall P l -> Forall P (slice_from start l).
Proof. apply skipn_Forall. Qed.

(** [l[-k:]] has [k] elements at most when [k] is positive. *)
Lemma slice_last_length (A : Type) (k : Z) (l : list A) :
  (1 <= k)%Z -> (Z.of_nat (List.length (slice_from (- k) l)) <= k)%Z.
Proof.
  intros Hk. unfold slice_from.
  destruct (Z.ltb_spec (- k) 0); [|lia].
  rewrite length_skipn. lia.
Qed.

Lemma select_ok (A : Type) (keep : A -> bool) (l : list A) (idx : list nat) :
  Forall (fun i => i < List.length l) idx ->
  exists r, select keep l idx = Ok r /\
            List.length r <= List.length idx /\
            Forall (fun a => keep a = true) r /\
            incl r l.
Proof.
  induction 1 as [|i idx Hi _ IH]; simpl.
  - exists []. split; [reflexivity|]. split; [simpl; lia|].
    split; [constructor | easy].
  - destruct IH as [r [-> [Hl [Hk Hin]]]]. unfold get.
    destruct (nth_error l i) as [a|] eqn:E.
    + simpl. destruct (keep a) eqn:Ka.
      * exists (a :: r). split; [reflexivity|]. split; [simpl; lia|].
        split; [now constructor|].
        intros x [<- | Hx]; [eapply nth_error_In, E | now apply Hin].
      * exists r. split; [reflexivity|]. split; [simpl; lia|]. now split.
    + apply nth_error_None in E. lia.
Qed.

Lemma filter_perm (A : Type) (keep : A -> bool) (l l' : list A) :
  Permutation l l' -> Permutation (filter keep l) (filter keep l').
Proof.
  induction 1 as [|x l l' _ IH|x y l|l l' l'' _ IH1 _ IH2]; simpl.
  - constructor.
  - destruct (keep x); [now constructor | exact IH].
  - destruct (keep x), (keep y); try reflexivity. apply perm_swap.
  - now transitivity (filter keep l').
Qed.

Lemma map_nth_seq (A : Type) (d : A) (l : list A) :
  map (fun i => nth i l d) (seq 0 (List.length l)) = l.
Proof.
  induction l as [|a l IH]; simpl; [reflexivity|]. f_equal.
  rewrite <- seq_shift, map_map. exact IH.
Qed.

(** Selecting with every position once keeps exactly the kept elements. *)
Lemma select_all (A : Type) (keep : A -> bool) (l r : list A) (idx : list nat) :
  Permutation idx (seq 0 (List.length l)) ->
  select keep l idx = Ok r ->
  Permutation r (filter keep l).
Proof.
  intros P E.
  assert (F : forall d, r = filter keep (map (fun i => nth i l d) idx)).
  { intros d. clear P. revert r E.
    induction idx as [|i idx IH]; intros r E; simpl in E.
    - now injection E as <-.
    - unfold get in E. destruct (nth_error l i) as [a|] eqn:Ea; [|discriminate].
      simpl in E. destruct (select keep l idx) as [rest|]; [|discriminate].
      simpl in E. injection E as <-. simpl.
      rewrite (nth_error_nth _ _ d Ea), (IH rest eq_refl).
      reflexivity. }
  destruct l as [|d l'] eqn:El.
  - simpl in P. symmetry in P. apply Permutation_nil in P. subst idx. simpl in E.
    injection E as <-. constructor.
  - rewrite <- El in *. rewrite (F d).
    transitivity
      (filter keep (map (fun i => nth i l d) (seq 0 (List.length l)))).
    + now apply filter_perm, Permutation_map.
    + now rewrite map_nth_seq.
Qed.

Lemma slice_all (A : Type) (l : list A) : slice_from (- 0) l = l.
Proof.
  unfold slice_from. simpl. destruct (List.length l); reflexivity.
Qed.

Lemma argsort_bound (argsort : list R -> list nat) (v : list R) :
  is_argsort argsort -> Forall (fun i => i < List.length v) (argsort v).
Proof.
  intros H. destruct (H v) as [P _].
  eapply Permutation_Forall; [symmetry; exact P|].
  apply Forall_forall. intros i Hi. apply in_seq in Hi. lia.
Qed.

(** The stable sort of the positions is an [argsort]. *)
Lemma stable_argsort_ok : is_argsort stable_argsort.
Proof.
  intros v. unfold stable_argsort. split.
  - apply sorted_perm.
  - unfold ascending.
    assert (H : StronglySorted (le (value_ltb v))
                  (sorted (value_ltb v) (seq 0 (List.length v)))).
    { apply sorted_sorted.
      - intros i j. unfold value_ltb.
        destruct (Rlt_dec (nth i v 0%R) (nth j v 0%R));
          destruct (Rlt_dec (nth j v 0%R) (nth i v 0%R));
          intros; try reflexivity; try discriminate. lra.
      - intros i j k. unfold le, value_ltb.
        destruct (Rlt_dec (nth j v 0%R) (nth i v 0%R));
          destruct (Rlt_dec (nth k v 0%R) (nth j v 0%R));
          destruct (Rlt_dec (nth k v 0%R) (nth i v 0%R));
          intros; try reflexivity; try discriminate. lra. }
    induction H as [|i l _ IH F]; constructor; [exact IH|].
    eapply Forall_impl; [|exact F]. intros j. unfold le, value_ltb.
    destruct (Rlt_dec (nth j v 0%R) (nth i v 0%R)); [discriminate|].
    intros _. lra.
Qed.

Lemma alnum_re_spec (k : str) : search alnum_re k = true -> has_alnum k.
Proof.
  intros H. apply search_spec in H as [m [[pre [post ->]] Hm]].
  apply class_inv in Hm as [c [-> Hc]]. exists c. split; [|exact Hc].
  apply in_or_app. right. now left.
Qed.

Section Engine.

Variable stop_words : list str.
Variable argsort : list R -> list nat.
Hypothesis argsort_ok : is_argsort argsort.

Lemma compute_match_score_raises (resume_clean jd_clean : str) :
  analyze stop_words jd_clean = [] ->
  analyze stop_words resume_clean = [] ->
  compute_match_score stop_words argsort resume_clean jd_clean
  = Raise empty_vocabulary.
Proof.
  intros Ha Hb. unfold compute_match_score.
  destruct (fit_transform_spec stop_words [jd_clean; resume_clean])
    as [Hn _].
  rewrite Hn; [reflexivity|]. simpl. now rewrite Ha, Hb.
Qed.

Lemma compute_match_score_returns (resume_clean jd_clean : str) :
  let a := analyze stop_words jd_clean in
  let b := analyze stop_words resume_clean in
  let terms := vocabulary [a; b] in
  a ++ b <> [] ->
  exists top_terms,
    compute_match_score stop_words argsort resume_clean jd_clean
    = Ok (cosine_similarity (tfidf_row [a; b] terms a)
                            (tfidf_row [a; b] terms b), top_terms).
Proof.
  intros a b terms Hne. unfold compute_match_score.
  destruct (fit_transform_spec stop_words [jd_clean; resume_clean])
    as [_ Hy].
  rewrite Hy by (simpl; now rewrite app_nil_r).
  cbn [bind map row nth]. fold a b terms.
  set (jd_vec := tfidf_row [a; b] terms a).
  destruct (@select_ok str (fun _ => true) terms
              (rev (slice_from (-15) (argsort jd_vec))))
    as [tops [-> _]].
  - apply Forall_rev, slice_from_Forall.
    rewrite <- (tfidf_row_length [a; b] terms a). fold jd_vec.
    now apply argsort_bound.
  - now exists tops.
Qed.

Lemma extract_keywords_raises (jd_clean : str) (top_k : Z) :
  analyze stop_words jd_clean = [] ->
  extract_keywords stop_words argsort jd_clean top_k = Raise empty_vocabulary.
Proof.
  intros Ha. unfold extract_keywords.
  destruct (fit_transform_spec stop_words [jd_clean]) as [Hn _].
  rewrite Hn; [reflexivity|]. simpl. now rewrite Ha.
Qed.

(** What the extractor returns when the text has a feature: the kept
    terms among those [argsort] selects, sorted. *)
Lemma extract_keywords_returns (jd_clean : str) (top_k : Z) :
  analyze stop_words jd_clean <> [] ->
  exists kws,
    extract_keywords stop_words argsort jd_clean top_k
    = Ok (sorted keyword_ltb kws) /\
    (1 <= top_k -> Z.of_nat (List.length kws) <= top_k)%Z /\
    Forall (fun k => search alnum_re k = true) kws /\
    incl kws (vocabulary [analyze stop_words jd_clean]).
Proof.
  intros Hne. unfold extract_keywords.
  destruct (fit_transform_spec stop_words [jd_clean]) as [_ Hy].
  rewrite Hy by (simpl; now rewrite app_nil_r).
  cbn [bind map List.concat]. rewrite app_nil_r.
  set (a := analyze stop_words jd_clean).
  set (terms := vocabulary [a]).
  set (arr := tfidf_row [a] terms a).
  destruct (@select_ok str (search alnum_re) terms
              (rev (slice_from (- top_k) (argsort arr))))
    as [kws [-> [Hl [Hk Hin]]]].
  - apply Forall_rev, slice_from_Forall.
    rewrite <- (tfidf_row_length [a] terms a). fold arr.
    now apply argsort_bound.
  - exists kws. split; [reflexivity|]. split; [|now split].
    intros Hk1. rewrite length_rev in Hl.
    pose proof (@slice_last_length nat top_k (argsort arr) Hk1). lia.
Qed.

(** With [top_k = 0] the slice [[-top_k:]] is the whole array, and every
    term with a letter or a digit is returned. *)
Lemma extract_keywords_uncapped (jd_clean : str) :
  analyze stop_words jd_clean <> [] ->
  exists kws,
    extract_keywords stop_words argsort jd_clean 0
    = Ok (sorted keyword_ltb kws) /\
    Permutation kws
      (filter (search alnum_re) (vocabulary [analyze stop_words jd_clean])).
Proof.
  intros Hne. unfold extract_keywords.
  destruct (fit_transform_spec stop_words [jd_clean]) as [_ Hy].
  rewrite Hy by (simpl; now rewrite app_nil_r).
  cbn [bind map List.concat]. rewrite app_nil_r, slice_all.
  set (a := analyze stop_words jd_clean).
  set (terms := vocabulary [a]).
  set (arr := tfidf_row [a] terms a).
  assert (P : Permutation (rev (argsort arr)) (seq 0 (List.length terms))).
  { rewrite <- Permutation_rev.
    rewrite <- (tfidf_row_length [a] terms a). apply argsort_ok. }
  destruct (@select_ok str (search alnum_re) terms (rev (argsort arr)))
    as [kws [E _]].
  - eapply Permutation_Forall; [symmetry; exact P|].
    apply Forall_forall. intros i Hi. apply in_seq in Hi. lia.
  - rewrite E. exists kws. split; [reflexivity|].
    eapply select_all; eassumption.
Qed.

End Engine.

End EngineFacts.

(** C7.  The normalizer is a total function of its input (a Rocq function:
    every string has exactly one normal form, there is no failure mode), and
    it is idempotent: for every string [s],
    [clean_text (clean_text s) = clean_text s]. *)
Theorem clean_text_idempotent (s : str) :
  Normalizer.clean_text (Normalizer.clean_text s) = Normalizer.clean_text s.
Proof.
  set (x := Normalizer.clean_text s).
  pose proof (NormalizerFacts.clean_text_allowed s) as Ha.
  pose proof (NormalizerFacts.clean_text_spaced s) as Hs.
  pose proof (NormalizerFacts.clean_text_stripped s) as Ht.
  fold x in Ha, Hs, Ht.
  unfold Normalizer.clean_text at 1.
  rewrite (NormalizerFacts.lower_fixed Ha).
  rewrite (NormalizerFacts.sub_disallowed_fixed Ha).
  unfold Normalizer.sub_spaces.
  rewrite (NormalizerFacts.sub_spaces_from_fixed _ _ Hs).
  exact Ht.
Qed.


(** The other way round: an address and two digits with seven hyphens
    between them make Contact Info ok. *)
Lemma contact_info_two_digits :
  SpecWords.spec_contact_ok (txt "jane@mail.com 1-------2") = false /\
  Utils.check_ok (txt "Contact Info")
    (Utils.ats_checks (txt "jane@mail.com 1-------2") (txt "pdf")) = Some true.
Proof. split; reflexivity. Qed.



(** C9.  For every raw text and every file tag, the report holds exactly
    the six checks, under their fixed names and in the order of the source,
    and its Tables/Graphics entry is ok with the fixed cautionary message. *)
Theorem ats_checks_six_names (resume_text ext : str) :
  map fst (Utils.ats_checks resume_text ext)
  = [ txt "File Type"; txt "Contact Info"; txt "Clear Sections";
      txt "Bullet Structure"; txt "Dates Present"; txt "Tables/Graphics" ]
  /\ Utils.lookup (txt "Tables/Graphics") (Utils.ats_checks resume_text ext)
     = Some {| Utils.ok := true; Utils.msg := Utils.tables_flag |}.
Proof. split; reflexivity. Qed.

(** C10.  The section hints are matched as substrings of the lowered text
    and two of them lie inside two others: a text that holds "work
    experience" (in any letter case) is counted for "experience" and for
    "work experience", one that holds "technical skills" for "skills" and
    for "technical skills"; so a text with these two headings has four
    hints, and Clear Sections is ok with two headings. *)
Theorem overlapping_section_hints (text ext : str) :
  (PyStr.contains (txt "work experience") (PyStr.lower text) = true ->
   In (txt "experience") (Utils.has_sections text) /\
   In (txt "work experience") (Utils.has_sections text) /\
   2 <= List.length (Utils.has_sections text)) /\
  (PyStr.contains (txt "technical skills") (PyStr.lower text) = true ->
   In (txt "skills") (Utils.has_sections text) /\
   In (txt "technical skills") (Utils.has_sections text) /\
   2 <= List.length (Utils.has_sections text)) /\
  (PyStr.contains (txt "work experience") (PyStr.lower text) = true ->
   PyStr.contains (txt "technical skills") (PyStr.lower text) = true ->
   4 <= List.length (Utils.has_sections text) /\
   Utils.check_ok (txt "Clear Sections") (Utils.ats_checks text ext)
   = Some true).
Proof.
  assert (Hwe : PyStr.contains (txt "work experience") (PyStr.lower text) = true ->
                PyStr.contains (txt "experience") (PyStr.lower text) = true).
  { intros H. apply CheckFacts.contains_spec in H. apply CheckFacts.contains_spec.
    apply (CheckFacts.occurs_in_part (txt "work ") (txt "experience") []).
    exact H. }
  assert (Hts : PyStr.contains (txt "technical skills") (PyStr.lower text) = true ->
                PyStr.contains (txt "skills") (PyStr.lower text) = true).
  { intros H. apply CheckFacts.contains_spec in H. apply CheckFacts.contains_spec.
    apply (CheckFacts.occurs_in_part (txt "technical ") (txt "skills") []).
    exact H. }
  split; [|split].
  - intros H. pose proof (Hwe H) as H'.
    split; [|split]; try (apply CheckFacts.has_sections_In;
                          [simpl; tauto | assumption]).
    unfold Utils.has_sections, Utils.SECTION_HINTS. cbn [filter].
    rewrite H, H'.
    repeat match goal with
           | |- context [if ?b then _ else _] => destruct b
           end; simpl; lia.
  - intros H. pose proof (Hts H) as H'.
    split; [|split]; try (apply CheckFacts.has_sections_In;
                          [simpl; tauto | assumption]).
    unfold Utils.has_sections, Utils.SECTION_HINTS. cbn [filter].
    rewrite H, H'.
    repeat match goal with
           | |- context [if ?b then _ else _] => destruct b
           end; simpl; lia.
  - intros H1 H2. pose proof (Hwe H1) as H1'. pose proof (Hts H2) as H2'.
    assert (Hl : 4 <= List.length (Utils.has_sections text)).
    { unfold Utils.has_sections, Utils.SECTION_HINTS. cbn [filter].
      rewrite H1, H1', H2, H2'.
      repeat match goal with
             | |- context [if ?b then _ else _] => destruct b
             end; simpl; lia. }
    split; [exact Hl|].
    rewrite CheckFacts.clear_sections_entry. f_equal.
    apply Nat.leb_le. lia.
Qed.

Lemma overlapping_section_hints_witness :
  Utils.has_sections Notions.two_headings
  = [ txt "skills"; txt "technical skills";
      txt "experience"; txt "work experience" ] /\
  4 <= List.length (Utils.has_sections Notions.two_headings) /\
  Utils.check_ok (txt "Clear Sections")
    (Utils.ats_checks Notions.two_headings (txt "pdf")) = Some true.
Proof.
  split; [reflexivity|].
  apply (overlapping_section_hints Notions.two_headings (txt "pdf")); reflexivity.
Defined.

(** C4.  For every score, present and missing keyword lists and report,
    the suggestions are, in this order: the suggestion of the score (the
    low-score one when the score is below 0.45, the weaker one when it is
    at least 0.45 and below 0.65, none from 0.65 on); one suggestion
    naming the first twelve missing keywords at most, when there is a
    missing keyword; one suggestion for each check of the report that is
    not ok, in the report's order; the three general suggestions. *)
Theorem suggest_improvements_spec
    (match_score : R) (present missing : list str) (ats_report : Utils.report) :
  exists gate gap : list str,
    Utils.suggest_improvements match_score present missing ats_report
    = gate ++ gap
      ++ map (fun kv => Utils.ats_suggestion (fst kv) (snd kv))
           (filter (fun kv => negb (Utils.ok (snd kv))) ats_report)
      ++ [ txt "Start bullets with strong action verbs (Built, Optimized, Automated) and quantify impact.";
           txt "Keep formatting simple: one column, standard fonts, no headers/footers.";
           txt "Save as text-based PDF (not scanned)." ]
    /\ (((match_score < 0.45)%R /\ gate = [Utils.low_score_suggestion]) \/
        ((0.45 <= match_score < 0.65)%R /\ gate = [Utils.mid_score_suggestion]) \/
        ((0.65 <= match_score)%R /\ gate = []))
    /\ ((missing = [] /\ gap = []) \/
        (missing <> [] /\
         gap = [ txt "Incorporate missing role-specific keywords where accurate: "
                 ++ PyStr.join (txt ", ") (firstn 12 missing) ++ txt "." ])).
Proof.
  unfold Utils.suggest_improvements.
  rewrite CheckFacts.ats_loop.
  destruct (Rlt_dec match_score 0.45) as [Hlow | Hlow];
    [| destruct (Rlt_dec match_score 0.65) as [Hmid | Hmid]].
  - exists [Utils.low_score_suggestion].
    destruct missing as [|k missing].
    + exists []. split; [|split]; [| left; now split | left; now split].
      simpl. now rewrite <- ?app_assoc.
    + exists [Utils.missing_suggestion (k :: missing)].
      split; [|split]; [| left; now split | right; now split].
      simpl. now rewrite <- ?app_assoc.
  - exists [Utils.mid_score_suggestion].
    assert (Hr : (0.45 <= match_score < 0.65)%R) by (split; lra).
    destruct missing as [|k missing].
    + exists []. split; [|split]; [| right; left; now split | left; now split].
      simpl. now rewrite <- ?app_assoc.
    + exists [Utils.missing_suggestion (k :: missing)].
      split; [|split]; [| right; left; now split | right; now split].
      simpl. now rewrite <- ?app_assoc.
  - exists [].
    assert (Hr : (0.65 <= match_score)%R) by lra.
    destruct missing as [|k missing].
    + exists []. split; [|split]; [| right; right; now split | left; now split].
      simpl. now rewrite <- ?app_assoc.
    + exists [Utils.missing_suggestion (k :: missing)].
      split; [|split]; [| right; right; now split | right; now split].
      simpl. now rewrite <- ?app_assoc.
Qed.

(** C6.  For every keyword list and normalized candidate text, the present
    list and the missing list split the keyword list: a keyword is in the
    list exactly when it is present or missing, none is both, and the two
    lists together are a rearrangement of the keyword list. *)
Theorem coverage_partition (jd_keywords : list str) (resume_clean : str) :
  (forall k, In k jd_keywords <->
             In k (App.present jd_keywords resume_clean) \/
             In k (App.missing jd_keywords resume_clean)) /\
  (forall k, ~ (In k (App.present jd_keywords resume_clean) /\
                In k (App.missing jd_keywords resume_clean))) /\
  Permutation
    (App.present jd_keywords resume_clean ++ App.missing jd_keywords resume_clean)
    jd_keywords.
Proof.
  unfold App.present, App.missing.
  set (found := fun k => PyStr.contains (PyStr.lower k) resume_clean).
  split; [|split].
  - intros k. rewrite !filter_In. fold (found k).
    destruct (found k); simpl; intuition congruence.
  - intros k. rewrite !filter_In. fold (found k).
    destruct (found k); simpl; intuition congruence.
  - induction jd_keywords as [|k l IH]; simpl; [constructor|].
    fold (found k). destruct (found k); simpl.
    + now constructor.
    + symmetry. apply Permutation_cons_app. now symmetry.
Qed.

(** ** The similarity engine and the keyword extractor: the claims *)

(** C1 as stated fails: the two texts below are empty after normalization
    ("!!!" and "***" are not, so the caller's guards let them through), and
    the call raises the vectorizer's [ValueError]; the source has no branch
    for the case. *)
Lemma similarity_of_empty_texts_raises :
  Normalizer.clean_text (txt "***") = [] /\
  Normalizer.clean_text (txt "!!!") = [] /\
  Engine.compute_match_score stop_words_excerpt Numpy.stable_argsort
    (Normalizer.clean_text (txt "***")) (Normalizer.clean_text (txt "!!!"))
  = Raise (ValueError
      "empty vocabulary; perhaps the documents only contain stop words").
Proof. repeat split; reflexivity. Qed.


(** C2 as stated fails: on the empty string the extractor raises. *)
Lemma extract_keywords_of_empty_raises :
  Engine.extract_keywords stop_words_excerpt Numpy.stable_argsort (txt "") 40
  = Raise (ValueError
      "empty vocabulary; perhaps the documents only contain stop words").
Proof. reflexivity. Qed.

(** C8 as stated fails: "c++ c#" is a normalized reference text, and the
    extractor returns no list for it: it raises. *)
Lemma extract_keywords_of_short_tokens_raises :
  Normalizer.clean_text (txt "C++ / C#") = txt "c++ c#" /\
  Engine.extract_keywords stop_words_excerpt Numpy.stable_argsort
    (txt "c++ c#") 40
  = Raise (ValueError
      "empty vocabulary; perhaps the documents only contain stop words").
Proof. split; reflexivity. Qed.

(** The guards of the handler let such texts through: the analysis of a
    resume "***" against the description "!!!" ends with the exception. *)
Lemma analysis_of_symbols_raises :
  App.analyze stop_words_excerpt Numpy.stable_argsort
    (txt "***") (txt "txt") (txt "!!!")
  = Raise (ValueError
      "empty vocabulary; perhaps the documents only contain stop words").
Proof. reflexivity. Qed.

Section Claims.

Import Sklearn Engine Numpy Notions.
Import OrderFacts VectorFacts SklearnFacts EngineFacts.

Variable stop_words : list str.
Variable argsort : list R -> list nat.
Hypothesis argsort_ok : is_argsort argsort.

(** C1, amended.  When one of the two texts has no vocabulary term (the
    empty text has none): if the other has none either, the call raises the
    vectorizer's [ValueError]; if the other has one, the call returns the
    similarity 0. *)
Theorem degenerate_similarity (resume_clean jd_clean : str) :
  analyze stop_words resume_clean = [] \/ analyze stop_words jd_clean = [] ->
  analyze stop_words [] = [] /\
  (analyze stop_words resume_clean = [] /\ analyze stop_words jd_clean = [] ->
   compute_match_score stop_words argsort resume_clean jd_clean
   = Raise (ValueError
       "empty vocabulary; perhaps the documents only contain stop words")) /\
  (analyze stop_words resume_clean <> [] \/ analyze stop_words jd_clean <> [] ->
   exists top_terms,
     compute_match_score stop_words argsort resume_clean jd_clean
     = Ok (0%R, top_terms)).
Proof.
  intros Hdeg. split; [reflexivity|]. split.
  - intros [Hb Ha]. now apply compute_match_score_raises.
  - intros Hne.
    destruct (compute_match_score_returns stop_words argsort_ok
                resume_clean jd_clean) as [tops E].
    + intros H. apply app_eq_nil in H as [Ha Hb]. tauto.
    + exists tops. rewrite E. f_equal. f_equal.
      apply cosine_disjoint, tfidf_rows_disjoint.
      intros t [Ia Ib]. destruct Hdeg as [H | H]; rewrite H in *; contradiction.
Qed.


(** C2, amended.  The extractor raises the vectorizer's [ValueError] for
    every string without vocabulary term, the empty string among them; for
    every string with a term, and every [top_k], it returns a list. *)
Theorem extract_keywords_raises_or_returns (jd_clean : str) (top_k : Z) :
  extract_keywords stop_words argsort [] top_k
  = Raise (ValueError
      "empty vocabulary; perhaps the documents only contain stop words") /\
  (analyze stop_words jd_clean = [] ->
   extract_keywords stop_words argsort jd_clean top_k
   = Raise (ValueError
       "empty vocabulary; perhaps the documents only contain stop words")) /\
  (analyze stop_words jd_clean <> [] ->
   exists kws, extract_keywords stop_words argsort jd_clean top_k = Ok kws).
Proof.
  split; [reflexivity|]. split.
  - apply extract_keywords_raises.
  - intros Hne.
    destruct (extract_keywords_returns stop_words argsort_ok jd_clean top_k Hne)
      as [kws [E _]].
    eauto.
Qed.

(** C8, amended.  For every reference text with a vocabulary term and every
    [top_k] of 1 or more, the extractor returns [top_k] terms at most, each
    with a lower-case letter or a digit, listed by decreasing number of
    words and alphabetically among terms of as many words; the list is
    determined by the terms it holds: with another order of equal weights
    in [argsort], a result with the same terms is the same list. *)
Theorem extract_keywords_sorted (jd_clean : str) (top_k : Z) :
  analyze stop_words jd_clean <> [] ->
  (1 <= top_k)%Z ->
  exists kws,
    extract_keywords stop_words argsort jd_clean top_k = Ok kws /\
    (Z.of_nat (List.length kws) <= top_k)%Z /\
    Forall has_alnum kws /\
    StronglySorted keyword_order kws /\
    (forall (argsort' : list R -> list nat) (kws' : list str),
        is_argsort argsort' ->
        extract_keywords stop_words argsort' jd_clean top_k = Ok kws' ->
        Permutation kws kws' ->
        kws = kws').
Proof.
  intros Hne Hk.
  destruct (extract_keywords_returns stop_words argsort_ok jd_clean top_k Hne)
    as [kws [E [Hl [Ha _]]]].
  exists (PyList.sorted keyword_ltb kws).
  pose proof (sorted_perm keyword_ltb kws) as P.
  split; [exact E|]. split; [|split; [|split]].
  - rewrite (Permutation_length P). now apply Hl.
  - eapply Permutation_Forall; [symmetry; exact P|].
    eapply Forall_impl; [|exact Ha]. intros k. apply alnum_re_spec.
  - apply keywords_sorted.
  - intros argsort' kws' Hok' E' P'.
    destruct (extract_keywords_returns stop_words Hok' jd_clean top_k Hne)
      as [kws0 [E0 _]].
    rewrite E0 in E'. injection E' as <-.
    apply (sorted_unique keyword_order_antisym);
      [apply keywords_sorted | apply keywords_sorted | exact P'].
Qed.

End Claims.

(** The text "python developer" has the terms "developer", "python" and
    "python developer". *)
Lemma python_developer_terms :
  Sklearn.analyze stop_words_excerpt (txt "python developer")
  = [txt "python"; txt "developer"; txt "python developer"].
Proof. reflexivity. Qed.

Lemma degenerate_similarity_witness :
  Numpy.is_argsort Numpy.stable_argsort /\
  Sklearn.analyze stop_words_excerpt (txt "") = [] /\
  exists top_terms,
    Engine.compute_match_score stop_words_excerpt Numpy.stable_argsort
      (txt "") (txt "python developer")
    = Ok (0%R, top_terms).
Proof.
  split; [exact EngineFacts.stable_argsort_ok|]. split; [reflexivity|].
  apply (@degenerate_similarity stop_words_excerpt Numpy.stable_argsort
           EngineFacts.stable_argsort_ok (txt "") (txt "python developer")).
  - left. reflexivity.
  - right. rewrite python_developer_terms. discriminate.
Defined.


Lemma extract_keywords_raises_or_returns_witness :
  exists kws,
    Engine.extract_keywords stop_words_excerpt Numpy.stable_argsort
      (txt "python developer") 40
    = Ok kws.
Proof.
  apply (@extract_keywords_raises_or_returns stop_words_excerpt
           Numpy.stable_argsort EngineFacts.stable_argsort_ok
           (txt "python developer") 40).
  rewrite python_developer_terms. discriminate.
Defined.

Lemma extract_keywords_sorted_witness :
  exists kws,
    Engine.extract_keywords stop_words_excerpt Numpy.stable_argsort
      (txt "python developer") 40
    = Ok kws /\
    (Z.of_nat (List.length kws) <= 40)%Z /\
    StronglySorted Notions.keyword_order kws.
Proof.
  destruct (@extract_keywords_sorted stop_words_excerpt
              Numpy.stable_argsort EngineFacts.stable_argsort_ok
              (txt "python developer") 40%Z)
    as [kws [E [L [_ [S _]]]]].
  - rewrite python_developer_terms. discriminate.
  - lia.
  - exists kws. now repeat split.
Defined.

(** With [top_k = 0] the three terms of "python developer" are returned:
    the slice caps the list only for a [top_k] of 1 or more. *)
Lemma extract_keywords_top_k_zero :
  Engine.extract_keywords stop_words_excerpt Numpy.stable_argsort
    (txt "python developer") 0
  = Ok [txt "python developer"; txt "developer"; txt "python"].
Proof.
  destruct (@EngineFacts.extract_keywords_uncapped stop_words_excerpt
              Numpy.stable_argsort EngineFacts.stable_argsort_ok
              (txt "python developer")) as [kws [E P]].
  - rewrite python_developer_terms. discriminate.
  - rewrite E. f_equal.
    apply (OrderFacts.sorted_unique OrderFacts.keyword_order_antisym).
    + apply OrderFacts.keywords_sorted.
    + repeat first
        [ apply SSorted_nil | apply Forall_nil
        | apply SSorted_cons | apply Forall_cons
        | apply OrderFacts.keyword_order_spec; reflexivity ].
    + rewrite (OrderFacts.sorted_perm Engine.keyword_ltb kws), P.
      vm_compute. symmetry.
      apply (Permutation_cons_app [_; _] []). reflexivity.
Qed.

(* ================================================================== *)
(** * Further properties of the code *)
(* ================================================================== *)

(** ** The normalizer *)

Module NormalizerMore.
Import PyStr Normalizer Notions StrFacts NormalizerFacts.

Lemma drop_while_length (p : ascii -> bool) (s : str) :
  List.length (drop_while p s) <= List.length s.
Proof.
  induction s as [|c s IH]; simpl; [lia|].
  destruct (p c); simpl; lia.
Qed.

Lemma strip_length (s : str) : List.length (strip s) <= List.length s.
Proof.
  unfold strip, rstrip, lstrip. rewrite length_rev.
  pose proof (drop_while_length is_space (rev (drop_while is_space s))) as H.
  rewrite length_rev in H.
  pose proof (drop_while_length is_space s). lia.
Qed.

Lemma drop_while_all (p : ascii -> bool) (s : str) :
  Forall (fun c => p c = true) s -> drop_while p s = [].
Proof. induction 1 as [|c s Hc _ IH]; simpl; [reflexivity | now rewrite Hc]. Qed.

(** A stripped string starts and ends with a character that is not white
    space. *)
Lemma strip_head (s : str) (c : ascii) (rest : str) :
  strip s = c :: rest -> is_space c = false.
Proof.
  unfold strip. intros E.
  destruct (rstrip_split (lstrip s)) as [post [E' _]].
  pose proof (drop_while_head is_space s) as Hh. fold (lstrip s) in Hh.
  rewrite E in E'. rewrite E' in Hh. exact Hh.
Qed.

Lemma strip_last (s front : str) (c : ascii) :
  strip s = front ++ [c] -> is_space c = false.
Proof.
  unfold strip, rstrip. intros E.
  pose proof (drop_while_head is_space (rev (lstrip s))) as Hh.
  apply (f_equal (@rev ascii)) in E.
  rewrite rev_involutive, rev_app_distr in E. simpl in E.
  rewrite E in Hh. exact Hh.
Qed.

Lemma strip_nil_iff (s : str) :
  strip s = [] <-> Forall (fun c => is_space c = true) s.
Proof.
  split.
  - intros E. unfold strip in E.
    destruct (lstrip_split s) as [pre [E1 F1]].
    destruct (rstrip_split (lstrip s)) as [post [E2 F2]].
    rewrite E in E2. simpl in E2. rewrite E2 in E1. rewrite E1.
    now apply Forall_app.
  - intros F. unfold strip, lstrip. now rewrite (drop_while_all _ F).
Qed.

Lemma sub_spaces_from_length (b : bool) (t : str) :
  List.length (sub_spaces_from b t) <= List.length t.
Proof.
  revert b. induction t as [|c t IH]; intros b; simpl; [lia|].
  destruct (is_space c); [destruct b|]; simpl.
  - pose proof (IH true). lia.
  - pose proof (IH true). lia.
  - pose proof (IH false). lia.
Qed.

Lemma sub_spaces_from_all_space (b : bool) (t : str) :
  Forall (fun c => is_space c = true) (sub_spaces_from b t) <->
  Forall (fun c => is_space c = true) t.
Proof.
  revert b. induction t as [|c t IH]; intros b; simpl; [tauto|].
  destruct (is_space c) eqn:Hc; [destruct b|].
  - rewrite IH. split; [now constructor | intros H; now inversion H].
  - split; intros H; inversion H; subst; constructor; auto; now apply (IH true).
  - split; intros H; inversion H; subst; congruence.
Qed.

Lemma spaced_only_space (b : bool) (s : str) :
  spaced b s -> Forall (fun c => is_space c = true -> c = " "%char) s.
Proof.
  revert b. induction s as [|c s IH]; intros b; simpl; [constructor|].
  destruct (is_space c) eqn:Hc.
  - intros [E [_ H]]. constructor; [easy | eapply IH, H].
  - intros H. constructor; [congruence | eapply IH, H].
Qed.

Lemma spaced_no_double (pre post : str) :
  ~ spaced false (pre ++ txt "  " ++ post).
Proof.
  intros H. apply spaced_suffix in H. simpl in H.
  destruct H as [_ [_ [_ [H _]]]]. discriminate.
Qed.

Lemma normal_char_of (c : ascii) :
  allowed c = true -> (is_space c = true -> c = " "%char) ->
  normal_char c = true.
Proof.
  destruct c as [[|] [|] [|] [|] [|] [|] [|] [|]]; vm_compute;
    intros H1 H2; try reflexivity; try discriminate;
    specialize (H2 eq_refl); discriminate.
Qed.

(** What the first two steps make of a character is white space exactly
    when the character is not visible. *)
Lemma visible_spec (c : ascii) :
  is_space (if allowed (lower_char c) then lower_char c else " "%char)
  = negb (visible c).
Proof. each_char c. Qed.

End NormalizerMore.

(** X1.  The output of the normalizer is in normal form: every character
    is a lower-case letter, a digit, one of [+ # . - ( )] or a space, no
    two spaces are adjacent, and the text neither starts nor ends with a
    space. *)
Theorem clean_text_normal_form (t : str) :
  Forall (fun c => Notions.normal_char c = true) (Normalizer.clean_text t) /\
  PyStr.contains (txt "  ") (Normalizer.clean_text t) = false /\
  (forall c rest, Normalizer.clean_text t = c :: rest -> c <> " "%char) /\
  (forall front c, Normalizer.clean_text t = front ++ [c] -> c <> " "%char).
Proof.
  pose proof (NormalizerFacts.clean_text_allowed t) as Ha.
  pose proof (NormalizerFacts.clean_text_spaced t) as Hs.
  split; [|split; [|split]].
  - pose proof (NormalizerMore.spaced_only_space _ _ Hs) as Ho.
    rewrite Forall_forall in *. intros c Hc.
    apply NormalizerMore.normal_char_of; [apply Ha, Hc | apply Ho, Hc].
  - destruct (PyStr.contains (txt "  ") (Normalizer.clean_text t)) eqn:E;
      [exfalso | reflexivity].
    apply CheckFacts.contains_spec in E as [pre [post E]].
    rewrite E in Hs. now apply NormalizerMore.spaced_no_double in Hs.
  - intros c rest E ->. unfold Normalizer.clean_text in E.
    apply NormalizerMore.strip_head in E. discriminate.
  - intros front c E ->. unfold Normalizer.clean_text in E.
    apply NormalizerMore.strip_last in E. discriminate.
Qed.

(** X2.  The normalizer never makes a text of ASCII characters longer.
    (Outside ASCII a letter can have a lower case of two characters.) *)
Theorem clean_text_length (t : str) :
  Notions.ascii_text t ->
  List.length (Normalizer.clean_text t) <= List.length t.
Proof.
  intros _. unfold Normalizer.clean_text, Normalizer.sub_spaces.
  pose proof (NormalizerMore.strip_length
                (Normalizer.sub_spaces_from false
                   (Normalizer.sub_disallowed (PyStr.lower t)))) as H1.
  pose proof (NormalizerMore.sub_spaces_from_length false
                (Normalizer.sub_disallowed (PyStr.lower t))) as H2.
  unfold Normalizer.sub_disallowed, PyStr.lower in *.
  rewrite !length_map in H2. lia.
Qed.

Lemma clean_text_length_witness :
  Notions.ascii_text (txt "  Hello,  World!  ") /\
  List.length (Normalizer.clean_text (txt "  Hello,  World!  "))
  <= List.length (txt "  Hello,  World!  ").
Proof.
  split; [reflexivity|].
  apply (@clean_text_length (txt "  Hello,  World!  ")). reflexivity.
Defined.

(** X3.  The normalized text of a text of ASCII characters is empty
    exactly when the text has no letter, no digit and none of
    [+ # . - ( )]: a text of other symbols only, such as "!!!", is not
    blank and normalizes to the empty text. *)
Theorem clean_text_empty_iff (t : str) :
  Notions.ascii_text t ->
  (Normalizer.clean_text t = [] <->
   Forall (fun c => Notions.visible c = false) t).
Proof.
  intros _. unfold Normalizer.clean_text, Normalizer.sub_spaces.
  rewrite NormalizerMore.strip_nil_iff.
  rewrite NormalizerMore.sub_spaces_from_all_space.
  unfold Normalizer.sub_disallowed, PyStr.lower.
  rewrite map_map, Forall_map.
  split; intros H; (eapply Forall_impl; [|exact H]); intros c Hc; simpl in *.
  - rewrite NormalizerMore.visible_spec in Hc.
    now apply negb_true_iff in Hc.
  - rewrite NormalizerMore.visible_spec. now apply negb_true_iff.
Qed.

Lemma clean_text_empty_iff_witness :
  Notions.ascii_text (txt "?! *") /\ Normalizer.clean_text (txt "?! *") = [].
Proof.
  split; [reflexivity|].
  apply (@clean_text_empty_iff (txt "?! *")); [reflexivity|].
  repeat constructor.
Defined.

(** ** The structural checks *)

Module CheckMore.
Import PyStr Regex Utils Notions RegexFacts CheckFacts.

Lemma word_spec (w m : str) : matches (Word w) m <-> m = w.
Proof.
  revert m. induction w as [|c w IH]; intros m; simpl.
  - split; [apply eps_inv | intros ->; constructor].
  - split.
    + intros H. apply cat_inv in H as [u [v [-> [Hu Hv]]]].
      apply lit_spec in Hu. apply IH in Hv. now subst.
    + intros ->. change (c :: w) with ([c] ++ w).
      constructor; [now apply lit_spec | now apply IH].
Qed.

Lemma occurs_in_extend (m pre s post : str) :
  occurs_in m s -> occurs_in m (pre ++ s ++ post).
Proof.
  intros [a [b ->]]. exists (pre ++ a), (b ++ post).
  now rewrite <- !app_assoc.
Qed.

(** A pattern found in a text is found in every text around it. *)
Lemma search_extend (r : regex) (pre s post : str) :
  search r s = true -> search r (pre ++ s ++ post) = true.
Proof.
  rewrite !search_spec. intros [m [Hm H]]. exists m.
  split; [now apply occurs_in_extend | exact H].
Qed.

Lemma contains_extend (p pre s post : str) :
  contains p s = true -> contains p (pre ++ s ++ post) = true.
Proof. rewrite !contains_spec. apply occurs_in_extend. Qed.

Lemma lower_app (a b : str) : lower (a ++ b) = lower a ++ lower b.
Proof. apply map_app. Qed.

Lemma filter_length_mono (A : Type) (f g : A -> bool) (l : list A) :
  (forall x, f x = true -> g x = true) ->
  List.length (filter f l) <= List.length (filter g l).
Proof.
  intros H. induction l as [|x l IH]; simpl; [lia|].
  destruct (f x) eqn:Ef.
  - rewrite (H x Ef). simpl. lia.
  - destruct (g x); simpl; lia.
Qed.

Lemma has_sections_extend (pre text post : str) :
  List.length (has_sections text)
  <= List.length (has_sections (pre ++ text ++ post)).
Proof.
  unfold has_sections. apply filter_length_mono. intros hint H.
  rewrite !lower_app. now apply contains_extend.
Qed.

(** *** The bullet markers *)

Lemma starts_with_app (a s post : str) :
  starts_with a s = true -> starts_with a (s ++ post) = true.
Proof.
  rewrite !starts_with_spec. intros [r ->]. exists (r ++ post).
  now rewrite app_assoc.
Qed.

Lemma marker_at_app (s post : str) :
  marker_at s = true -> marker_at (s ++ post) = true.
Proof.
  unfold marker_at. rewrite !orb_true_iff.
  intros [[H | H] | H]; [left; left | left; right | right];
    now apply starts_with_app.
Qed.

Lemma count_markers_prefix (pre s : str) :
  count_markers s <= count_markers (pre ++ s).
Proof. induction pre as [|c pre IH]; simpl; lia. Qed.

Lemma count_markers_suffix (s post : str) :
  count_markers s <= count_markers (s ++ post).
Proof.
  induction s as [|c s IH]; [simpl; lia|].
  change ((c :: s) ++ post) with (c :: s ++ post).
  cbn [count_markers].
  destruct (marker_at (c :: s)) eqn:E.
  - change (c :: s ++ post) with ((c :: s) ++ post).
    rewrite (marker_at_app _ post E). lia.
  - destruct (marker_at (c :: s ++ post)); lia.
Qed.

Lemma count_markers_extend (pre s post : str) :
  count_markers s <= count_markers (pre ++ s ++ post).
Proof.
  pose proof (count_markers_suffix s post).
  pose proof (count_markers_prefix pre (s ++ post)). lia.
Qed.

(** No marker starts inside a marker, so the characters the scan passes
    after a match hide none: it counts every position where one starts. *)
Lemma findall_bullets_count (skip : nat) (s : str) :
  (forall j, j < skip -> marker_at (skipn j s) = false) ->
  List.length (findall_literals_from bullets skip s) = count_markers s.
Proof.
  revert skip. induction s as [|c s IH]; intros skip H; [reflexivity|].
  cbn [findall_literals_from count_markers].
  destruct skip as [|k].
  - unfold first_literal, bullets. cbn [find]. unfold marker_at.
    destruct (starts_with bullet_glyph (c :: s)) eqn:E1;
      [|destruct (starts_with (txt "- ") (c :: s)) eqn:E2;
        [|destruct (starts_with (txt "* ") (c :: s)) eqn:E3]];
      cbn [orb List.length Nat.add].
    + f_equal. apply starts_with_spec in E1 as [r E1]. injection E1 as -> ->.
      apply IH. intros [|[|j]] Hj; [reflexivity | reflexivity |].
      simpl in Hj. lia.
    + f_equal. apply starts_with_spec in E2 as [r E2]. injection E2 as -> ->.
      apply IH. intros [|j] Hj; [reflexivity | simpl in Hj; lia].
    + f_equal. apply starts_with_spec in E3 as [r E3]. injection E3 as -> ->.
      apply IH. intros [|j] Hj; [reflexivity | simpl in Hj; lia].
    + apply IH. intros j Hj. lia.
  - assert (H0 : marker_at (c :: s) = false) by (apply (H 0); lia).
    rewrite H0. cbn [Nat.add]. apply IH.
    intros j Hj. apply (H (S j)). lia.
Qed.

Lemma bullet_usage_count (text : str) :
  bullet_usage text = (5 <=? count_markers text).
Proof.
  unfold bullet_usage, findall_literals. fold bullets.
  rewrite findall_bullets_count; [reflexivity|]. intros j Hj. lia.
Qed.

Lemma some_true (b : bool) : Some b = Some true -> b = true.
Proof. congruence. Qed.

(** The entries of the report, by name. *)
Lemma check_ok_cases (name text ext : str) :
  check_ok name (ats_checks text ext) =
  if str_eqb name (txt "File Type")
  then Some (str_eqb ext (txt "pdf") || str_eqb ext (txt "docx"))
  else if str_eqb name (txt "Contact Info")
  then Some (search email_re text && search phone_re text)
  else if str_eqb name (txt "Clear Sections")
  then Some (3 <=? List.length (has_sections text))
  else if str_eqb name (txt "Bullet Structure")
  then Some (bullet_usage text)
  else if str_eqb name (txt "Dates Present")
  then Some (has_dates text)
  else if str_eqb name (txt "Tables/Graphics")
  then Some true
  else None.
Proof.
  unfold check_ok, ats_checks, has_contact_info. cbn [lookup].
  repeat match goal with
         | |- context [if ?b then _ else _] => destruct b; [reflexivity|]
         end.
  reflexivity.
Qed.

(** The number of entries of the report that are not ok is 5 at most. *)
Lemma ats_checks_failing (text ext : str) :
  List.length (filter (fun kv => negb (ok (snd kv))) (ats_checks text ext)) <= 5.
Proof.
  unfold ats_checks, has_contact_info. cbn [filter snd ok].
  repeat match goal with
         | |- context [if negb ?b then _ else _] => destruct b; cbn [negb]
         end; simpl; lia.
Qed.

End CheckMore.

(** X4.  Dates Present looks for a year anywhere, also inside a longer
    number: for a text of ASCII characters, [has_dates] holds exactly when
    the text has "19" or "20" followed by two digits.  (On other text the
    two digits can be decimal digits outside ASCII.) *)
Theorem has_dates_iff (text : str) :
  Notions.ascii_text text ->
  (Utils.has_dates text = true <->
   exists pre century d1 d2 post,
     text = pre ++ century ++ [d1; d2] ++ post /\
     (century = txt "19" \/ century = txt "20") /\
     PyStr.is_digit d1 = true /\ PyStr.is_digit d2 = true).
Proof.
  intros _. unfold Utils.has_dates. rewrite RegexFacts.search_spec. split.
  - intros [m [[pre [post ->]] H]]. unfold Utils.year_re in H.
    apply RegexFacts.alt_inv in H as [H | H];
      apply RegexFacts.cat_inv in H as [w [v [-> [Hw H]]]];
      apply CheckMore.word_spec in Hw; subst w;
      apply RegexFacts.cat_inv in H as [x [y [-> [Hx Hy]]]];
      apply RegexFacts.class_inv in Hx as [d1 [-> H1]];
      apply RegexFacts.class_inv in Hy as [d2 [-> H2]].
    + exists pre, (txt "20"), d1, d2, post. repeat split; auto.
    + exists pre, (txt "19"), d1, d2, post. repeat split; auto.
  - intros [pre [century [d1 [d2 [post [-> [Hc [H1 H2]]]]]]]].
    exists (century ++ [d1; d2]). split.
    + exists pre, post. now rewrite <- !app_assoc.
    + unfold Utils.year_re.
      destruct Hc as [-> | ->]; [apply Regex.MAltR | apply Regex.MAltL];
        (constructor; [now apply CheckMore.word_spec|]);
        change [d1; d2] with ([d1] ++ [d2]); constructor; now constructor.
Qed.

Lemma has_dates_iff_witness :
  Notions.ascii_text (txt "id 120193") /\
  Utils.has_dates (txt "id 120193") = true.
Proof.
  split; [reflexivity|].
  apply (@has_dates_iff (txt "id 120193")); [reflexivity|].
  exists (txt "id 1"), (txt "20"), "1"%char, "9"%char, (txt "3").
  repeat split; auto.
Defined.

(** X5.  Bullet Structure counts every position of the text where a bullet
    glyph, "- " or "* " starts: no occurrence is lost to the scan resuming
    after a match, and the check is ok exactly from five such positions. *)
Theorem bullet_usage_iff (text : str) :
  Utils.bullet_usage text = true <-> 5 <= Notions.count_markers text.
Proof. rewrite CheckMore.bullet_usage_count. apply Nat.leb_le. Qed.

(** X6.  A check that is ok for a text is ok for every text that contains
    it: adding text before or after never turns a check of the report from
    ok to failing. *)
Theorem ats_checks_monotone (name pre text post ext : str) :
  Utils.check_ok name (Utils.ats_checks text ext) = Some true ->
  Utils.check_ok name (Utils.ats_checks (pre ++ text ++ post) ext) = Some true.
Proof.
  rewrite !CheckMore.check_ok_cases.
  destruct (PyStr.str_eqb name (txt "File Type")); [easy|].
  destruct (PyStr.str_eqb name (txt "Contact Info")).
  { intros H. apply CheckMore.some_true in H. apply andb_true_iff in H as [He Hp].
    now rewrite (CheckMore.search_extend _ pre text post He),
                (CheckMore.search_extend _ pre text post Hp). }
  destruct (PyStr.str_eqb name (txt "Clear Sections")).
  { intros H. apply CheckMore.some_true in H. apply Nat.leb_le in H. f_equal.
    apply Nat.leb_le. pose proof (CheckMore.has_sections_extend pre text post).
    lia. }
  destruct (PyStr.str_eqb name (txt "Bullet Structure")).
  { rewrite !CheckMore.bullet_usage_count. intros H. apply CheckMore.some_true in H.
    apply Nat.leb_le in H. f_equal. apply Nat.leb_le.
    pose proof (CheckMore.count_markers_extend pre text post). lia. }
  destruct (PyStr.str_eqb name (txt "Dates Present")).
  { intros H. apply CheckMore.some_true in H. unfold Utils.has_dates in *.
    now rewrite (CheckMore.search_extend _ pre text post H). }
  easy.
Qed.

Lemma ats_checks_monotone_witness :
  Utils.check_ok (txt "Dates Present")
    (Utils.ats_checks (txt "2020") (txt "txt")) = Some true /\
  Utils.check_ok (txt "Dates Present")
    (Utils.ats_checks (txt "since " ++ txt "2020" ++ txt ".") (txt "txt"))
  = Some true.
Proof.
  split; [reflexivity|].
  apply (@ats_checks_monotone (txt "Dates Present") (txt "since ")
           (txt "2020") (txt ".") (txt "txt")).
  reflexivity.
Defined.

(** X7.  For the report of the structural checks, the suggestions are 3 at
    least (the general ones) and 10 at most: one for the score, one for the
    missing keywords, one for each of the five checks that can fail. *)
Theorem suggestions_count
    (match_score : R) (present missing : list str) (resume_text ext : str) :
  3 <= List.length
         (Utils.suggest_improvements match_score present missing
            (Utils.ats_checks resume_text ext)) <= 10.
Proof.
  unfold Utils.suggest_improvements. rewrite CheckFacts.ats_loop.
  pose proof (CheckMore.ats_checks_failing resume_text ext) as F.
  rewrite !length_app, length_map.
  remember (List.length
              (filter (fun kv => negb (Utils.ok (snd kv)))
                 (Utils.ats_checks resume_text ext))) as failing eqn:E.
  clear E. change (List.length Utils.general_suggestions) with 3.
  destruct (Rlt_dec match_score 0.45);
    [|destruct (Rlt_dec match_score 0.65)];
    destruct missing; cbn [List.length app]; lia.
Qed.

(** ** The similarity engine and the keyword extractor *)

Module EngineMore.
Import PyStr PyList Regex Sklearn Engine Numpy Notions.
Import OrderFacts VectorFacts SklearnFacts RegexFacts EngineFacts.



(** The vocabulary is strictly increasing, so it has no duplicate. *)
Lemma insert_feature_sorted (x : str) (l : list str) :
  StronglySorted strictly l -> StronglySorted strictly (insert_feature x l).
Proof.
  induction 1 as [|y l Hs IH Hy]; simpl.
  - constructor; constructor.
  - destruct (ltb x y) eqn:E.
    + constructor; [now constructor|]. constructor; [exact E|].
      eapply Forall_impl; [|exact Hy]. intros z Hz.
      eapply ltb_trans; eassumption.
    + destruct (str_eqb x y) eqn:Q; [now constructor|].
      constructor; [exact IH|].
      apply Forall_forall. intros z Hz. apply insert_feature_In in Hz.
      destruct Hz as [-> | Hz]; [|rewrite Forall_forall in Hy; now apply Hy].
      destruct (ltb_trichotomy x y) as [[A _] | [[-> _] | [A _]]];
        [congruence | | exact A].
      rewrite str_eqb_refl in Q. discriminate.
Qed.

Lemma vocabulary_sorted (docs : list (list str)) :
  StronglySorted strictly (vocabulary docs).
Proof.
  unfold vocabulary. induction (List.concat docs) as [|x l IH]; simpl.
  - constructor.
  - now apply insert_feature_sorted.
Qed.

Lemma strictly_NoDup (l : list str) : StronglySorted strictly l -> NoDup l.
Proof.
  induction 1 as [|x l _ IH F]; constructor; [|exact IH].
  intros I. rewrite Forall_forall in F. specialize (F x I).
  unfold strictly in F. rewrite ltb_irrefl in F. discriminate.
Qed.

Lemma vocabulary_NoDup (docs : list (list str)) : NoDup (vocabulary docs).
Proof. apply strictly_NoDup, vocabulary_sorted. Qed.




(** *** Slices of an [argsort] *)

Lemma slice_last_exact (A : Type) (k : Z) (l : list A) :
  (1 <= k)%Z ->
  List.length (slice_from (- k) l) = Nat.min (Z.to_nat k) (List.length l).
Proof.
  intros Hk. unfold slice_from.
  destruct (Z.ltb_spec (- k) 0); [|lia].
  rewrite length_skipn. lia.
Qed.

Lemma slice_whole (A : Type) (k : Z) (l : list A) :
  (k = 0 \/ Z.of_nat (List.length l) <= k)%Z -> slice_from (- k) l = l.
Proof.
  intros [-> | Hk]; [apply slice_all|].
  unfold slice_from. destruct (Z.ltb_spec (- k) 0).
  - replace (Z.to_nat (Z.max 0 (Z.of_nat (List.length l) + - k))) with 0 by lia.
    reflexivity.
  - assert (k = 0)%Z by lia. subst k. apply slice_all.
Qed.

Lemma skipn_NoDup (A : Type) (n : nat) (l : list A) :
  NoDup l -> NoDup (skipn n l).
Proof.
  intros H. rewrite <- (firstn_skipn n l) in H.
  now apply NoDup_app_remove_l in H.
Qed.

Lemma sorted_app_inv (A : Type) (R : A -> A -> Prop) (l1 l2 : list A) :
  StronglySorted R (l1 ++ l2) ->
  StronglySorted R l1 /\ StronglySorted R l2 /\
  (forall x y, In x l1 -> In y l2 -> R x y).
Proof.
  induction l1 as [|a l1 IH]; simpl; intros H.
  - repeat split; [constructor | exact H | easy].
  - apply StronglySorted_inv in H as [H F].
    destruct (IH H) as [S1 [S2 C]]. apply Forall_app in F as [F1 F2].
    repeat split; [now constructor | exact S2 |].
    intros x y [<- | Ix] Iy; [|now apply C].
    rewrite Forall_forall in F2. now apply F2.
Qed.

Lemma sorted_snoc (A : Type) (R : A -> A -> Prop) (l : list A) (a : A) :
  StronglySorted R l -> Forall (fun x => R x a) l ->
  StronglySorted R (l ++ [a]).
Proof.
  induction 1 as [|x l S IH F]; intros H; simpl.
  - constructor; constructor.
  - inversion H; subst. constructor; [now apply IH|].
    apply Forall_app. split; [exact F | now constructor].
Qed.

Lemma sorted_rev (A : Type) (R : A -> A -> Prop) (l : list A) :
  StronglySorted R l -> StronglySorted (fun x y => R y x) (rev l).
Proof.
  induction 1 as [|x l S IH F]; simpl; [constructor|].
  apply sorted_snoc; [exact IH|]. now apply Forall_rev.
Qed.

Lemma select_filter (A : Type) (keep : A -> bool) (d : A)
    (l r : list A) (idx : list nat) :
  select keep l idx = Ok r ->
  r = filter keep (map (fun i => nth i l d) idx).
Proof.
  revert r. induction idx as [|i idx IH]; intros r E; simpl in E.
  - now injection E as <-.
  - unfold get in E. destruct (nth_error l i) as [a|] eqn:Ea; [|discriminate].
    simpl in E. destruct (select keep l idx) as [rest|]; [|discriminate].
    simpl in E. injection E as <-. simpl.
    rewrite (nth_error_nth _ _ d Ea), (IH rest eq_refl). reflexivity.
Qed.

Lemma map_nth_NoDup (A : Type) (d : A) (l : list A) (idx : list nat) :
  NoDup l -> NoDup idx -> Forall (fun i => i < List.length l) idx ->
  NoDup (map (fun i => nth i l d) idx).
Proof.
  intros Hl Hi Hb. induction Hi as [|i idx Hn Hi IH]; simpl; [constructor|].
  inversion Hb as [|? ? Hlt Hb']; subst. constructor; [|now apply IH].
  intros I. apply in_map_iff in I as [j [E Ij]].
  rewrite Forall_forall in Hb'.
  assert (j = i) by (eapply (proj1 (NoDup_nth l d) Hl); auto).
  now subst.
Qed.

Section Engine.

Variable stop_words : list str.
Variable argsort : list R -> list nat.
Hypothesis argsort_ok : is_argsort argsort.

Lemma argsort_NoDup (v : list R) : NoDup (argsort v).
Proof.
  destruct (argsort_ok v) as [P _].
  eapply Permutation_NoDup; [symmetry; exact P | apply seq_NoDup].
Qed.

Lemma argsort_length (v : list R) : List.length (argsort v) = List.length v.
Proof.
  destruct (argsort_ok v) as [P _].
  rewrite (Permutation_length P). apply length_seq.
Qed.

(** The positions of the fifteen greatest values, greatest first. *)
Lemma top_positions (v : list R) :
  let top := rev (slice_from (-15) (argsort v)) in
  List.length top = Nat.min 15 (List.length v) /\
  NoDup top /\
  Forall (fun i => i < List.length v) top /\
  StronglySorted (fun i j => (nth j v 0 <= nth i v 0)%R) top /\
  (forall i j, In i top -> j < List.length v -> ~ In j top ->
               (nth j v 0 <= nth i v 0)%R).
Proof.
  intros top. unfold top.
  destruct (argsort_ok v) as [P S]. unfold ascending in S.
  assert (E : slice_from (-15) (argsort v)
              = skipn (List.length v - 15) (argsort v)).
  { unfold slice_from. rewrite argsort_length.
    destruct (Z.ltb_spec (-15) 0); [|lia]. f_equal. lia. }
  split; [|split; [|split; [|split]]].
  - rewrite length_rev, (@slice_last_exact nat 15), argsort_length by lia.
    reflexivity.
  - apply NoDup_rev. rewrite E. apply skipn_NoDup, argsort_NoDup.
  - apply Forall_rev, slice_from_Forall. now apply argsort_bound.
  - rewrite E. apply sorted_rev.
    rewrite <- (firstn_skipn (List.length v - 15) (argsort v)) in S.
    now apply sorted_app_inv in S as [_ [S _]].
  - intros i j Ii Hj Nj. rewrite <- in_rev in Ii, Nj. rewrite E in Ii, Nj.
    rewrite <- (firstn_skipn (List.length v - 15) (argsort v)) in S.
    apply sorted_app_inv in S as [_ [_ C]]. apply C; [|exact Ii].
    assert (Ij : In j (argsort v)).
    { eapply Permutation_in; [symmetry; exact P|]. apply in_seq. lia. }
    rewrite <- (firstn_skipn (List.length v - 15) (argsort v)) in Ij.
    apply in_app_iff in Ij as [Ij | Ij]; [exact Ij | contradiction].
Qed.

(** The top terms of a call that returns. *)
Lemma compute_match_score_top (resume_clean jd_clean : str) :
  let a := analyze stop_words jd_clean in
  let b := analyze stop_words resume_clean in
  let terms := vocabulary [a; b] in
  let jd_vec := tfidf_row [a; b] terms a in
  a ++ b <> [] ->
  compute_match_score stop_words argsort resume_clean jd_clean
  = Ok (cosine_similarity jd_vec (tfidf_row [a; b] terms b),
        map (fun i => nth i terms []) (rev (slice_from (-15) (argsort jd_vec)))).
Proof.
  intros a b terms jd_vec Hne. unfold compute_match_score.
  destruct (fit_transform_spec stop_words [jd_clean; resume_clean])
    as [_ Hy].
  rewrite Hy by (simpl; now rewrite app_nil_r).
  cbn [bind map row nth]. fold a b terms. fold jd_vec.
  destruct (@select_ok str (fun _ => true) terms
              (rev (slice_from (-15) (argsort jd_vec))))
    as [tops [E _]].
  - apply Forall_rev, slice_from_Forall.
    rewrite <- (tfidf_row_length [a; b] terms a). fold jd_vec.
    now apply argsort_bound.
  - rewrite E. cbn [bind]. f_equal. f_equal.
    rewrite (select_filter _ [] _ _ E).
    apply forallb_filter_id. apply forallb_forall. reflexivity.
Qed.

(** The keywords before they are sorted. *)
Lemma extract_keywords_selected (jd_clean : str) (top_k : Z) :
  let a := analyze stop_words jd_clean in
  let terms := vocabulary [a] in
  a <> [] ->
  exists kws,
    extract_keywords stop_words argsort jd_clean top_k
    = Ok (sorted keyword_ltb kws) /\
    NoDup kws /\
    incl kws terms /\
    ((top_k = 0 \/ Z.of_nat (List.length terms) <= top_k)%Z ->
     Permutation kws (filter (search alnum_re) terms)).
Proof.
  intros a terms Hne. unfold extract_keywords.
  destruct (fit_transform_spec stop_words [jd_clean]) as [_ Hy].
  rewrite Hy by (simpl; now rewrite app_nil_r).
  cbn [bind map List.concat]. rewrite app_nil_r. fold a terms.
  set (arr := tfidf_row [a] terms a).
  assert (La : List.length arr = List.length terms)
    by apply tfidf_row_length.
  assert (B : Forall (fun i => i < List.length terms)
                (rev (slice_from (- top_k) (argsort arr)))).
  { apply Forall_rev, slice_from_Forall. rewrite <- La.
    now apply argsort_bound. }
  destruct (@select_ok str (search alnum_re) terms _ B)
    as [kws [E [_ [_ Hin]]]].
  rewrite E. exists kws. split; [reflexivity|]. split; [|split].
  - rewrite (select_filter _ [] _ _ E). apply NoDup_filter.
    apply map_nth_NoDup; [apply vocabulary_NoDup | | exact B].
    apply NoDup_rev. unfold slice_from. apply skipn_NoDup, argsort_NoDup.
  - exact Hin.
  - intros Hk. eapply select_all; [|exact E].
    rewrite slice_whole by (rewrite argsort_length, La; exact Hk).
    rewrite <- Permutation_rev, <- La. apply argsort_ok.
Qed.

End Engine.

End EngineMore.



(** X9.  When a term is left of either text, the call returns, with the
    score, the 15 terms of greatest weight in the row of the job
    description (all the terms when there are fewer): distinct terms of the
    vocabulary, by decreasing weight, none of the terms left out weighing
    more than one of them. *)
Theorem top_terms_spec
    (stop_words : list str) (argsort : list R -> list nat)
    (argsort_ok : Numpy.is_argsort argsort) (resume_clean jd_clean : str) :
  Sklearn.analyze stop_words jd_clean <> [] \/
  Sklearn.analyze stop_words resume_clean <> [] ->
  let docs := [Sklearn.analyze stop_words jd_clean;
               Sklearn.analyze stop_words resume_clean] in
  let terms := Sklearn.vocabulary docs in
  let jd_vec := Sklearn.tfidf_row docs terms (Sklearn.analyze stop_words jd_clean) in
  exists (score : R) (top_terms : list str) (top_idx : list nat),
    Engine.compute_match_score stop_words argsort resume_clean jd_clean
    = Ok (score, top_terms) /\
    top_terms = map (fun i => nth i terms []) top_idx /\
    List.length top_terms = Nat.min 15 (List.length terms) /\
    NoDup top_terms /\
    incl top_terms terms /\
    StronglySorted (fun i j => (nth j jd_vec 0 <= nth i jd_vec 0)%R) top_idx /\
    (forall i j, In i top_idx -> j < List.length terms -> ~ In j top_idx ->
                 (nth j jd_vec 0 <= nth i jd_vec 0)%R).
Proof.
  intros Hne docs terms jd_vec.
  pose proof (@EngineMore.compute_match_score_top stop_words argsort
                argsort_ok resume_clean jd_clean) as E.
  cbv zeta in E. fold docs terms jd_vec in E.
  destruct (@EngineMore.top_positions argsort argsort_ok jd_vec)
    as [L [N [B [S T]]]].
  assert (Lv : List.length jd_vec = List.length terms)
    by apply SklearnFacts.tfidf_row_length.
  rewrite Lv in L, B, T.
  eexists _, _, (rev (PyList.slice_from (-15) (argsort jd_vec))).
  split.
  { apply E. intros H. apply app_eq_nil in H as [H1 H2]. tauto. }
  split; [reflexivity|].
  split; [now rewrite length_map|].
  split.
  { apply EngineMore.map_nth_NoDup;
      [apply EngineMore.vocabulary_NoDup | exact N | exact B]. }
  split; [|split; [exact S | exact T]].
  intros t I. apply in_map_iff in I as [i [<- Ii]].
  rewrite Forall_forall in B. now apply nth_In, B.
Qed.

Lemma top_terms_spec_witness :
  exists (score : R) (top_terms : list str),
    Engine.compute_match_score stop_words_excerpt Numpy.stable_argsort
      (txt "python") (txt "python developer")
    = Ok (score, top_terms) /\
    List.length top_terms = 3.
Proof.
  destruct (@top_terms_spec stop_words_excerpt Numpy.stable_argsort
              EngineFacts.stable_argsort_ok (txt "python")
              (txt "python developer"))
    as [score [tops [idx [E [_ [L _]]]]]].
  - left. rewrite python_developer_terms. discriminate.
  - exists score, tops. split; [exact E|]. rewrite L. reflexivity.
Defined.

(** X10.  When a term is left of the text, the keywords are distinct terms
    of its vocabulary; and when [top_k] is 0 or at least the number of
    terms, every term with a lower-case letter or a digit is a keyword. *)
Theorem keywords_distinct_terms
    (stop_words : list str) (argsort : list R -> list nat)
    (argsort_ok : Numpy.is_argsort argsort) (jd_clean : str) (top_k : Z) :
  Sklearn.analyze stop_words jd_clean <> [] ->
  let terms := Sklearn.vocabulary [Sklearn.analyze stop_words jd_clean] in
  exists kws,
    Engine.extract_keywords stop_words argsort jd_clean top_k = Ok kws /\
    NoDup kws /\
    incl kws terms /\
    ((top_k = 0 \/ Z.of_nat (List.length terms) <= top_k)%Z ->
     forall t, In t terms -> Regex.search Engine.alnum_re t = true ->
               In t kws).
Proof.
  intros Hne terms.
  destruct (@EngineMore.extract_keywords_selected stop_words argsort
              argsort_ok jd_clean top_k Hne) as [kws [E [N [I C]]]].
  pose proof (OrderFacts.sorted_perm Engine.keyword_ltb kws) as P.
  exists (PyList.sorted Engine.keyword_ltb kws).
  split; [exact E|]. split; [|split].
  - eapply Permutation_NoDup; [symmetry; exact P | exact N].
  - intros t Ht. apply I. eapply Permutation_in; [exact P | exact Ht].
  - intros Hk t Ht Hs. eapply Permutation_in; [symmetry; exact P|].
    eapply Permutation_in; [symmetry; exact (C Hk)|].
    apply filter_In. now split.
Qed.

Lemma keywords_distinct_terms_witness :
  exists kws,
    Engine.extract_keywords stop_words_excerpt Numpy.stable_argsort
      (txt "python developer") 40
    = Ok kws /\ NoDup kws.
Proof.
  destruct (@keywords_distinct_terms stop_words_excerpt Numpy.stable_argsort
              EngineFacts.stable_argsort_ok (txt "python developer") 40%Z)
    as [kws [E [N _]]].
  - rewrite python_developer_terms. discriminate.
  - now exists kws.
Defined.

(** ** The handler of [app.py] and the text extractors *)

Module AppMore.
Import PyStr PyList Notions Extract App.
Import StrFacts NormalizerMore OrderFacts VectorFacts SklearnFacts EngineFacts.

Lemma split_on_not_nil (sep : ascii) (s : str) : split_on sep s <> [].
Proof.
  induction s as [|c s IH]; simpl; [discriminate|].
  destruct (Ascii.eqb c sep); [discriminate|].
  destruct (split_on sep s); discriminate.
Qed.

(** Joining the pieces with the separator gives the string back. *)
Lemma join_split_on (sep : ascii) (s : str) :
  join [sep] (split_on sep s) = s.
Proof.
  induction s as [|c s IH]; simpl; [reflexivity|].
  destruct (Ascii.eqb c sep) eqn:E.
  - apply Ascii.eqb_eq in E. subst c.
    pose proof (split_on_not_nil sep s) as N.
    destruct (split_on sep s) as [|p rest]; [contradiction|].
    simpl in *. now rewrite IH.
  - destruct (split_on sep s) as [|p rest] eqn:Es; simpl in *.
    + now subst.
    + destruct rest; simpl in *; now rewrite <- IH.
Qed.

Lemma split_on_pieces (sep : ascii) (s : str) :
  Forall (fun piece => ~ In sep piece /\ incl piece s) (split_on sep s).
Proof.
  induction s as [|c s IH]; simpl.
  - constructor; [|constructor]. split; [easy | easy].
  - assert (W : Forall (fun piece => ~ In sep piece /\ incl piece (c :: s))
                  (split_on sep s)).
    { eapply Forall_impl; [|exact IH]. intros p [H1 H2].
      split; [exact H1 | now apply incl_tl]. }
    destruct (Ascii.eqb c sep) eqn:E.
    + constructor; [split; easy | exact W].
    + apply Ascii.eqb_neq in E.
      destruct (split_on sep s) as [|p rest].
      * constructor; [|constructor]. split.
        -- intros [H | []]. congruence.
        -- intros x [<- | []]. now left.
      * inversion W as [|? ? [H1 H2] W']; subst. constructor; [|exact W'].
        split.
        -- intros [H | H]; [congruence | contradiction].
        -- intros x [<- | Hx]; [now left | now apply H2].
Qed.

Lemma join_snoc (sep : str) (l : list str) (x : str) :
  l <> [] -> join sep (l ++ [x]) = join sep l ++ sep ++ x.
Proof.
  induction l as [|a l IH]; [easy|]. intros _.
  destruct l as [|b l]; [reflexivity|].
  change (join sep ((a :: b :: l) ++ [x]))
    with (a ++ sep ++ join sep ((b :: l) ++ [x])).
  rewrite IH by discriminate.
  change (join sep (a :: b :: l)) with (a ++ sep ++ join sep (b :: l)).
  now rewrite <- !app_assoc.
Qed.

Lemma get_last_snoc (A : Type) (l : list A) (x : A) :
  get_last (l ++ [x]) = Ok x.
Proof. unfold get_last. now rewrite rev_app_distr. Qed.

Lemma lower_char_idem (c : ascii) : lower_char (lower_char c) = lower_char c.
Proof. each_char c. Qed.

Lemma lower_char_not_upper (c : ascii) : is_upper (lower_char c) = false.
Proof. each_char c. Qed.

(** *** Blank texts *)




End AppMore.

(** X11.  The extension the handler reads off a file name never raises
    and holds no dot; for a name of ASCII characters it is the lowered name
    after its last dot (the whole lowered name when there is no dot) and
    holds none of the letters [A-Z]. *)
Theorem file_ext_spec (name : str) :
  exists ext,
    App.file_ext name = Ok ext /\
    ~ In "."%char ext /\
    (Notions.ascii_text name ->
     Forall (fun c => PyStr.is_upper c = false) ext /\
     (PyStr.lower name = ext \/
      exists stem, PyStr.lower name = stem ++ txt "." ++ ext)).
Proof.
  unfold App.file_ext.
  pose proof (AppMore.join_split_on "." (PyStr.lower name)) as J.
  pose proof (AppMore.split_on_pieces "." (PyStr.lower name)) as P.
  destruct (exists_last (AppMore.split_on_not_nil "." (PyStr.lower name)))
    as [init [ext E]].
  rewrite E in *. exists ext.
  apply Forall_app in P as [_ P]. inversion P as [|? ? [Hd Hi] _]; subst.
  split; [apply AppMore.get_last_snoc|]. split; [exact Hd|].
  intros _. split.
  - apply Forall_forall. intros c Hc.
    assert (I : In c (PyStr.lower name)) by now apply Hi.
    apply in_map_iff in I as [c0 [<- _]]. apply AppMore.lower_char_not_upper.
  - destruct init as [|p init].
    + left. now rewrite <- J.
    + right. exists (PyStr.join ["."%char] (p :: init)).
      rewrite <- J at 1. now apply AppMore.join_snoc.
Qed.

Lemma file_ext_spec_witness :
  Notions.ascii_text (txt "My.Resume.PDF") /\
  exists ext,
    App.file_ext (txt "My.Resume.PDF") = Ok ext /\
    Forall (fun c => PyStr.is_upper c = false) ext.
Proof.
  split; [reflexivity|].
  destruct (@file_ext_spec (txt "My.Resume.PDF")) as [ext [E [_ H]]].
  destruct (H eq_refl) as [U _]. exists ext. now split.
Defined.

(** X12.  Once a file is uploaded and its text read, for texts of ASCII
    characters and an [argsort] as assumed, the rest of the handler ends in
    one of four ways: the warning when the job description is blank; else
    the extraction error when the text of the resume is blank; else the
    uncaught [ValueError] when no vocabulary term is left of the
    normalized job description; else a report, with a score that is not
    negative and 40 keywords at most. *)
Theorem analyze_outcome
    (stop_words : list str) (argsort : list R -> list nat)
    (argsort_ok : Numpy.is_argsort argsort) (resume_text ext jd_text : str) :
  Notions.ascii_text resume_text ->
  Notions.ascii_text jd_text ->
  let jd_terms := Sklearn.analyze stop_words (Normalizer.clean_text jd_text) in
  (App.is_blank jd_text = true /\
   App.analyze stop_words argsort resume_text ext jd_text
   = Ok (App.Warned (txt "Please upload a resume and paste a job description.")))
  \/
  (App.is_blank jd_text = false /\ App.is_blank resume_text = true /\
   App.analyze stop_words argsort resume_text ext jd_text
   = Ok (App.Failed (txt "Could not extract text from the resume (is it a scanned image?). Try a different file.")))
  \/
  (App.is_blank jd_text = false /\ App.is_blank resume_text = false /\
   jd_terms = [] /\
   App.analyze stop_words argsort resume_text ext jd_text
   = Raise Notions.empty_vocabulary)
  \/
  (App.is_blank jd_text = false /\ App.is_blank resume_text = false /\
   jd_terms <> [] /\
   exists score jd_keywords suggestions,
     App.analyze stop_words argsort resume_text ext jd_text
     = Ok (App.Reported score jd_keywords
             (App.present jd_keywords (Normalizer.clean_text resume_text))
             (App.missing jd_keywords (Normalizer.clean_text resume_text))
             (Utils.ats_checks resume_text ext) suggestions) /\
     (0 <= score)%R /\
     List.length jd_keywords <= 40).
Proof.
  intros _ _ jd_terms. unfold App.analyze.
  destruct (App.is_blank jd_text) eqn:Bj; [left; now split|].
  destruct (App.is_blank resume_text) eqn:Br; [right; left; now split|].
  right. right.
  set (rc := Normalizer.clean_text resume_text).
  set (jc := Normalizer.clean_text jd_text). fold jc in jd_terms.
  destruct jd_terms as [|t ts] eqn:Ej; subst jd_terms.
  - left. repeat split; try reflexivity.
    destruct (Sklearn.analyze stop_words rc) as [|u us] eqn:Er.
    + now rewrite EngineFacts.compute_match_score_raises.
    + destruct (@EngineFacts.compute_match_score_returns stop_words argsort
                  argsort_ok rc jc) as [tops E].
      { rewrite Ej, Er. discriminate. }
      rewrite E. cbn [bind].
      now rewrite EngineFacts.extract_keywords_raises.
  - right. repeat split; try reflexivity; [discriminate|].
    destruct (@EngineFacts.compute_match_score_returns stop_words argsort
                argsort_ok rc jc) as [tops E].
    { rewrite Ej. discriminate. }
    destruct (@EngineFacts.extract_keywords_returns stop_words argsort
                argsort_ok jc 40%Z) as [kws [K [L _]]].
    { rewrite Ej. discriminate. }
    rewrite E, K. cbn [bind].
    eexists _, _, _. split; [reflexivity|]. split.
    + apply VectorFacts.cosine_bounds; apply SklearnFacts.tfidf_row_nonneg.
    + rewrite (Permutation_length (OrderFacts.sorted_perm _ kws)).
      specialize (L ltac:(lia)). lia.
Qed.

Lemma analyze_outcome_witness :
  exists score jd_keywords present missing report suggestions,
    App.analyze stop_words_excerpt Numpy.stable_argsort
      (txt "python") (txt "txt") (txt "python developer")
    = Ok (App.Reported score jd_keywords present missing report suggestions).
Proof.
  destruct (@analyze_outcome stop_words_excerpt Numpy.stable_argsort
              EngineFacts.stable_argsort_ok
              (txt "python") (txt "txt") (txt "python developer")
              eq_refl eq_refl)
    as [[B _] | [[_ [B _]] | [[_ [_ [T _]]] | [_ [_ [_ H]]]]]];
    try discriminate.
  destruct H as [score [kws [sug [E _]]]]. eauto 10.
Defined.


